(** * go-import-inspector: the dependency graph builder and closure counter

    A shallow embedding of [main.go]: the string predicate
    [IsStandardPackage], the [PackageCache], the graph builder
    [DependencyManager.Import], the lookup [DependencyManager.Get], the
    transitive closure counter [DependencyManager.CoundDepsRecursive] and
    [main], with the properties the specification states about them and
    further properties read off the code. *)

From Stdlib Require Import ZArith Lia Ascii String.
From stdpp Require Import gmap strings list fin_maps fin_sets sorting pretty.

Local Open Scope Z_scope.

(** ** The part of Go's [strings] package that [main.go] calls

    Go strings are byte sequences; so are Rocq's [string]s. Indices and
    limits are Go [int]s, kept as [Z] (no arithmetic here can leave the
    64-bit range: every value is bounded by a string length). *)
Module strings.

Definition len (s : string) : Z := Z.of_nat (String.length s).

(** [strings.HasPrefix(s, prefix)] *)
Fixpoint HasPrefix (s prefix : string) : bool :=
  match prefix, s with
  | EmptyString, _ => true
  | String _ _, EmptyString => false
  | String a prefix', String b s' =>
      if Ascii.eqb a b then HasPrefix s' prefix' else false
  end.

(** [strings.Index(s, substr)]: the index of the first instance of
    [substr] in [s], or -1. *)
Fixpoint Index (s substr : string) : Z :=
  if HasPrefix s substr then 0
  else match s with
       | EmptyString => -1
       | String _ s' =>
           let i := Index s' substr in
           if i <? 0 then -1 else i + 1
       end.

(** [strings.Contains(s, substr)] is [Index(s, substr) >= 0]. *)
Definition Contains (s substr : string) : bool := 0 <=? Index s substr.

(** The slices [s[:m]] and [s[m:]]. *)
Fixpoint take (m : nat) (s : string) : string :=
  match m, s with
  | S m', String c s' => String c (take m' s')
  | _, _ => EmptyString
  end.

Fixpoint drop (m : nat) (s : string) : string :=
  match m, s with
  | S m', String _ s' => drop m' s'
  | _, _ => s
  end.

(** [strings.Count(s, substr)] for a non-empty [substr]: the number of
    non-overlapping instances. The Go loop cuts [s] after each instance;
    [fuel] bounds its iterations (every instance consumes a byte). *)
Fixpoint Count_loop (fuel : nat) (s substr : string) : Z :=
  match fuel with
  | O => 0
  | S fuel' =>
      let i := Index s substr in
      if i <? 0 then 0
      else 1 + Count_loop fuel' (drop (Z.to_nat (i + len substr)) s) substr
  end.

Definition Count (s substr : string) : Z :=
  Count_loop (String.length s) s substr.

(** [explode(s, n)]: [s] cut after each character, at most [n] pieces
    (the last piece is the unsplit rest). Go cuts after each UTF-8
    sequence; here after each byte, which agrees on ASCII input. Only
    reached from [genSplit] with an empty separator, which [main.go]
    never passes. *)
Fixpoint explode_loop (k : nat) (s : string) : list string :=
  match s with
  | EmptyString => []
  | String c s' =>
      match k with
      | O => [s]
      | S k' =>
          match s' with
          | EmptyString => [s]
          | _ => String c EmptyString :: explode_loop k' s'
          end
      end
  end.

Definition explode (s : string) (n : Z) : list string :=
  let n := if (n <? 0) || (len s <? n) then len s else n in
  explode_loop (Z.to_nat (n - 1)) s.

(** The loop of [genSplit]: [for i < n] with [k] iterations left. *)
Fixpoint genSplit_loop (k : nat) (s sep : string) : list string :=
  match k with
  | O => [s]
  | S k' =>
      let m := Index s sep in
      if m <? 0 then [s]
      else take (Z.to_nat m) s
             :: genSplit_loop k' (drop (Z.to_nat (m + len sep)) s) sep
  end.

(** [genSplit(s, sep, 0, n)] *)
Definition genSplit (s sep : string) (n : Z) : list string :=
  if n =? 0 then []
  else if String.eqb sep EmptyString then explode s n
  else
    let n := if n <? 0 then Count s sep + 1 else n in
    let n := if len s + 1 <? n then len s + 1 else n in
    genSplit_loop (Z.to_nat (n - 1)) s sep.

(** [strings.SplitN(s, sep, n)] *)
Definition SplitN (s sep : string) (n : Z) : list string := genSplit s sep n.

End strings.

(** ** [IsStandardPackage]

    [x[0]] panics when [x] is empty: the result is [None] then. *)
Definition IsStandardPackage (importPath : string) : option bool :=
  let x := strings.SplitN importPath "/" 2 in
  match x !! 0%nat with
  | Some x0 => Some (negb (strings.Contains x0 "."))
  | None => None
  end.

(** The classification in the specification's words: the first path
    segment is what precedes the first slash, and the segment is
    domain-like when a dot occurs in it. *)
Fixpoint first_segment (s : string) : string :=
  match s with
  | EmptyString => EmptyString
  | String c s' =>
      if Ascii.eqb c "/"%char then EmptyString else String c (first_segment s')
  end.

Fixpoint has_dot (s : string) : bool :=
  match s with
  | EmptyString => false
  | String c s' => Ascii.eqb c "."%char || has_dot s'
  end.

Definition standard_by_spec (importPath : string) : bool :=
  negb (has_dot (first_segment importPath)).

(** ** [build.Package]: the fields [main.go] reads *)
Record Package := mkPackage {
  ImportPath : string;
  Dir : string;
  Imports : list string;
}.

(** ** [PackageCache]

    The mutex guards each single map access; the model is sequential, so
    [Get] and [Put] are the map operations themselves. *)
Module PackageCache.

Record t := mk { packages : gmap string Package }.

Definition Get (c : t) (importPath : string) : option Package :=
  packages c !! importPath.

Definition Put (c : t) (pkg : Package) : t :=
  mk (<[ImportPath pkg := pkg]> (packages c)).

End PackageCache.

Definition NewPackageCache : PackageCache.t := PackageCache.mk ∅.

(** ** [DependencyManager] *)
Module DependencyManager.

Record t := mk {
  packages : PackageCache.t;
  dependencies : gmap string (gset string);
}.

(** The locked block of [Import]:
    [if m.dependencies[from] == nil { m.dependencies[from] = make(..) }
     m.dependencies[from][to] = struct{}{}]. *)
Definition add_dependency (m : t) (from to : string) : t :=
  let set := default ∅ (dependencies m !! from) in
  mk (packages m) (<[from := {[to]} ∪ set]> (dependencies m)).

(** [m.packages.Put(pkg)] *)
Definition put_package (m : t) (pkg : Package) : t :=
  mk (PackageCache.Put (packages m) pkg) (dependencies m).

(** The identifiers stored in the cache, and the edge set of a package
    ([m.dependencies[path]], empty for a missing key). *)
Definition cached (m : t) : gset string :=
  dom (PackageCache.packages (packages m)).

Definition edges (m : t) (path : string) : gset string :=
  default ∅ (dependencies m !! path).

(** What a call leaves behind. [trace] lists the manager after each
    write the call made (each [Put], each added edge), oldest first: the
    states another observer of the two maps can see. It is bookkeeping
    of the model, not a field of the program. *)
Inductive Result {error : Type} :=
| OutOfFuel
| Returned (r : error + Package) (m : t) (trace : list t).
Arguments Result : clear implicits.

Section ImportOp.
Context {error : Type}.

(** [build.Import(path, srcDir, 0)], the external package resolver. *)
Variable build_Import : string → string → error + Package.

(** The [for _, im := range pkg.Imports] loop of [Import], with the
    recursive call [m.Import] as [rec]. *)
Definition Import_range (rec : t → string → string → Result error)
    (pkg : Package) : list string → t → list t → Result error :=
  fix loop (ims : list string) (m : t) (trace : list t) :=
    match ims with
    | [] => Returned (inr pkg) m trace
    | im :: rest =>
        if String.eqb im "C" then loop rest m trace
        else
          match rec m im (Dir pkg) with
          | OutOfFuel => OutOfFuel
          | Returned (inl err) m' tr => Returned (inl err) m' (trace ++ tr)
          | Returned (inr importedPkg) m' tr =>
              let m'' :=
                add_dependency m' (ImportPath pkg) (ImportPath importedPkg) in
              loop rest m'' (trace ++ tr ++ [m''])
          end
    end.

(** [func (m *DependencyManager) Import(path, srcDir)]. [fuel] bounds
    the depth of the recursion. *)
Fixpoint Import (fuel : nat) (m : t) (path srcDir : string) : Result error :=
  match fuel with
  | O => OutOfFuel
  | S fuel' =>
      match build_Import path srcDir with
      | inl err => Returned (inl err) m []
      | inr pkg =>
          match PackageCache.Get (packages m) (ImportPath pkg) with
          | Some cachedPkg => Returned (inr cachedPkg) m []
          | None =>
              let m1 := put_package m pkg in
              Import_range (Import fuel') pkg (Imports pkg) m1 [m1]
          end
      end
  end.

End ImportOp.

Section CountDeps.

(** [for im := range m.dependencies[path]] visits the keys in an order
    Go leaves unspecified: [range_keys path s] is the order in which
    the keys of [s] come while [path] is expanded. *)
Variable range_keys : string → gset string → list string.

Definition addDeps_range (rec : gset string → string → option (gset string))
    : list string → gset string → option (gset string) :=
  fix loop (ims : list string) (deps : gset string) :=
    match ims with
    | [] => Some deps
    | im :: rest =>
        match rec deps im with
        | None => None
        | Some deps' => loop rest deps'
        end
    end.

(** [addDeps] mutates the map [deps]; here it returns the map after
    the call. [None] is fuel exhaustion ([fuel] bounds the depth). *)
Fixpoint addDeps (fuel : nat) (m : t) (keep : string → bool)
    (deps : gset string) (path : string) : option (gset string) :=
  match fuel with
  | O => None
  | S fuel' =>
      if negb (keep path) then Some deps
      else if decide (path ∈ deps) then Some deps
      else
        addDeps_range (addDeps fuel' m keep)
          (range_keys path (edges m path)) ({[path]} ∪ deps)
  end.

(** [len(deps)] is a Go [int]. *)
Definition CoundDepsRecursive (fuel : nat) (m : t) (path : string)
    (keep : string → bool) : option Z :=
  match addDeps fuel m keep ∅ path with
  | Some deps => Some (Z.of_nat (size deps))
  | None => None
  end.

End CountDeps.

(** What [Get] leaves behind: the error, or the descriptor with the list
    of its direct dependencies, and the manager with the writes made. *)
Inductive GetResult {error : Type} :=
| GetOutOfFuel
| GetReturned (r : error + Package * list string) (m : t) (trace : list t).
Arguments GetResult : clear implicits.

Section GetOp.
Context {error : Type}.

(** [build.Import(path, srcDir, 0)] and
    [build.Import(path, srcDir, build.FindOnly)]. *)
Variable build_Import : string → string → error + Package.
Variable build_FindOnly : string → string → error + Package.

(** The order in which [for im := range depsMap] yields the keys. *)
Variable range_keys : string → gset string → list string.

(** The tail of [Get], under the lock: [deps] stays nil unless the edge
    set has an element. *)
Definition Get_deps (m : t) (pkg : Package) : list string :=
  let depsMap := edges m (ImportPath pkg) in
  if decide (0 < size depsMap)%nat
  then range_keys (ImportPath pkg) depsMap
  else [].

(** [func (m *DependencyManager) Get(path, srcDir)] *)
Definition Get (fuel : nat) (m : t) (path srcDir : string) : GetResult error :=
  match build_FindOnly path srcDir with
  | inl err => GetReturned (inl err) m []
  | inr findPkg =>
      match PackageCache.Get (packages m) (ImportPath findPkg) with
      | Some pkg => GetReturned (inr (pkg, Get_deps m pkg)) m []
      | None =>
          match Import build_Import fuel m path srcDir with
          | OutOfFuel => GetOutOfFuel
          | Returned (inl err) m' tr => GetReturned (inl err) m' tr
          | Returned (inr pkg) m' tr =>
              GetReturned (inr (pkg, Get_deps m' pkg)) m' tr
          end
      end
  end.

End GetOp.

End DependencyManager.

Definition NewDependencyManager : DependencyManager.t :=
  DependencyManager.mk NewPackageCache ∅.

Import DependencyManager.

(** ** [main]

    [sort.Strings] orders by Go's [<] on strings, which compares bytes.
    Equal strings are the same string, so the sorted list is determined by
    the order alone; merge sort yields it. *)
Definition string_le (s1 s2 : string) : Prop := String.leb s1 s2 = true.

#[global] Instance string_le_dec s1 s2 : Decision (string_le s1 s2).
Proof. unfold string_le. apply _. Defined.

Definition sort_Strings (x : list string) : list string :=
  merge_sort string_le x.

(** [%6d]: the decimal digits, with spaces on the left up to six columns;
    a longer number is not cut. *)
Definition pad_left (width : nat) (s : string) : string :=
  String.concat "" (replicate (width - String.length s) " "%string) +:+ s.

(** [fmt.Printf("%6d %s\n", n, im)], as the line it writes. *)
Definition Printf_6d_s (n : Z) (im : string) : string :=
  pad_left 6 (pretty n) +:+ " " +:+ im +:+ String "010"%char EmptyString.

(** The closure [filter] of [main] (named [main_filter] here: [filter] is
    the list operation). [IsStandardPackage] cannot panic; the [None]
    branch is there for the type only. *)
Definition main_filter (excludeStandard : bool) (importPath : string) : bool :=
  if excludeStandard
  then match IsStandardPackage importPath with
       | Some standard => negb standard
       | None => false
       end
  else true.

(** How the process ends: the usage text and exit status 1, [log.Fatal]
    with an error, or status 0 after the lines written to the standard
    output. *)
Inductive Outcome {error : Type} :=
| MainOutOfFuel
| UsageExit
| LogFatal (err : error)
| Exit0 (stdout : list string).
Arguments Outcome : clear implicits.

Section MainOp.
Context {error : Type}.
Variable build_Import : string → string → error + Package.
Variable build_FindOnly : string → string → error + Package.

(** The iteration orders of the map in [Get], and of the maps walked by
    the call of [CoundDepsRecursive] for each printed dependency. *)
Variable range_get : string → gset string → list string.
Variable range_count : string → string → gset string → list string.

(** The loop [for _, im := range deps] of [main]. *)
Fixpoint main_range (fuel : nat) (dm : DependencyManager.t)
    (keep : string → bool) (deps : list string) : option (list string) :=
  match deps with
  | [] => Some []
  | im :: rest =>
      if negb (keep im) then main_range fuel dm keep rest
      else
        match CoundDepsRecursive (range_count im) fuel dm im keep with
        | None => None
        | Some n =>
            match main_range fuel dm keep rest with
            | None => None
            | Some lines => Some (Printf_6d_s n im :: lines)
            end
        end
  end.

(** [main], given what [flag.Parse] found ([excludeStandard], [args]) and
    what [os.Getwd] answers. *)
Definition main (fuel : nat) (excludeStandard : bool) (args : list string)
    (getwd : error + string) : Outcome error :=
  match args with
  | [arg0] =>
      match getwd with
      | inl err => LogFatal err
      | inr cwd =>
          match Get build_Import build_FindOnly range_get fuel
                  NewDependencyManager arg0 cwd with
          | GetOutOfFuel => MainOutOfFuel
          | GetReturned (inl err) _ _ => LogFatal err
          | GetReturned (inr (_, deps)) dm _ =>
              match main_range fuel dm (main_filter excludeStandard)
                      (sort_Strings deps) with
              | None => MainOutOfFuel
              | Some lines => Exit0 lines
              end
          end
      end
  | _ => UsageExit
  end.

End MainOp.

(** ** Notions the properties are stated with

    *** The closure counter *)

(** [kept_path m keep x y]: the edge table has a path from [x] to [y]
    all of whose nodes, both ends included, satisfy the filter. *)
Inductive kept_path (m : t) (keep : string → bool) : string → string → Prop :=
| kept_path_root x : keep x = true → kept_path m keep x x
| kept_path_edge x y z :
    keep x = true → y ∈ edges m x → kept_path m keep y z → kept_path m keep x z.

(** The identifiers that occur in some edge set. *)
Definition targets (m : t) : gset string :=
  ⋃ ((map_to_list (dependencies m)).*2).

(** The [range] loop of [addDeps] over the keys [ims]: one call, of
    behaviour [P], after the other, each on the visited set the previous
    one left. *)
Inductive chain (P : gset string → string → gset string → Prop)
  : list string → gset string → gset string → Prop :=
| chain_nil d : chain P [] d d
| chain_cons im rest d d1 d' :
    P d im d1 → chain P rest d1 d' → chain P (im :: rest) d d'.

(** What a call adds satisfies the filter, and the call only adds. *)
Definition grows_kept (keep : string → bool)
    (deps : gset string) (path : string) (deps' : gset string) : Prop :=
  deps ⊆ deps' ∧ (keep path = true → path ∈ deps') ∧
  ∀ x, x ∈ deps' → x ∉ deps → keep x = true.

(** New members are reached through kept nodes only, and all their kept
    successors are members too. *)
Definition explores (m : t) (keep : string → bool)
    (deps : gset string) (path : string) (deps' : gset string) : Prop :=
  grows_kept keep deps path deps' ∧
  ∀ x, x ∈ deps' → x ∉ deps →
    kept_path m keep path x ∧
    ∀ y, y ∈ edges m x → keep y = true → y ∈ deps'.

(** The edge tables a→b, a→c, b→d, c→d and a→b→c, for any canonical
    identifiers. *)
Definition diamond (a b c d : string) : t :=
  mk NewPackageCache (<[a := {[b; c]}]> (<[b := {[d]}]> (<[c := {[d]}]> ∅))).

Definition chain3 (a b c : string) : t :=
  mk NewPackageCache (<[a := {[b]}]> (<[b := {[c]}]> ∅)).

(** *** The graph builder *)

(** The runs of the import loop of a package, given what a recursive call
    can do ([P m path srcDir r m' trace]). *)
Inductive range_steps {error : Type}
    (P : t → string → string → error + Package → t → list t → Prop)
    (pkg : Package)
  : list string → t → list t → error + Package → t → list t → Prop :=
| range_done m trace :
    range_steps P pkg [] m trace (inr pkg) m trace
| range_skip rest m trace r m' trace' :
    range_steps P pkg rest m trace r m' trace' →
    range_steps P pkg ("C"%string :: rest) m trace r m' trace'
| range_fail im rest m trace err m' tr :
    im ≠ "C"%string →
    P m im (Dir pkg) (inl err) m' tr →
    range_steps P pkg (im :: rest) m trace (inl err) m' (trace ++ tr)
| range_next im rest m trace importedPkg m1 tr r m' trace' :
    im ≠ "C"%string →
    P m im (Dir pkg) (inr importedPkg) m1 tr →
    range_steps P pkg rest
      (add_dependency m1 (ImportPath pkg) (ImportPath importedPkg))
      (trace ++ tr ++
         [add_dependency m1 (ImportPath pkg) (ImportPath importedPkg)])
      r m' trace' →
    range_steps P pkg (im :: rest) m trace r m' trace'.

(** Every cached descriptor is stored under its own identifier. *)
Definition cache_wf (m : t) : Prop :=
  ∀ k p, PackageCache.packages (packages m) !! k = Some p → ImportPath p = k.

(** [m'] comes after [m]: cached descriptors stay as they are, edge sets
    only grow, and the edge sets of the packages cached in [m] are left
    alone, those of [X] excepted. *)
Definition extends_but (X : gset string) (m m' : t) : Prop :=
  PackageCache.packages (packages m) ⊆ PackageCache.packages (packages m') ∧
  (∀ k, k ∈ cached m → k ∉ X → dependencies m' !! k = dependencies m !! k) ∧
  (∀ k, edges m k ⊆ edges m' k) ∧
  (cache_wf m → cache_wf m').

(** What every call guarantees, whether it fails or not. *)
Definition Import_post {error : Type}
    (build_Import : string → string → error + Package)
    (m : t) (path srcDir : string)
    (r : error + Package) (m' : t) (tr : list t) : Prop :=
  extends_but ∅ m m' ∧
  ∀ p, r = inr p → cache_wf m →
    PackageCache.packages (packages m') !! ImportPath p = Some p ∧
    ∃ q, build_Import path srcDir = inr q ∧ ImportPath q = ImportPath p.

(** Every key of the edge table is a cached package with a non-empty
    edge set, whose members are cached packages. *)
Definition edges_resolved (m : t) : Prop :=
  ∀ P s, dependencies m !! P = Some s →
    P ∈ cached m ∧ s ≠ ∅ ∧ s ⊆ cached m.

(** Every recorded edge P→Q comes from an import of P's descriptor, other
    than the cgo pseudo-package, that the resolver maps to Q. *)
Definition edges_justified {error : Type}
    (build_Import : string → string → error + Package) (m : t) : Prop :=
  ∀ P Q, Q ∈ edges m P →
    ∃ pkg, PackageCache.packages (packages m) !! P = Some pkg ∧
      ∃ im q, im ∈ Imports pkg ∧ im ≠ "C"%string ∧
              build_Import im (Dir pkg) = inr q ∧ ImportPath q = Q.

(** What holds of the two maps at every observable point. *)
Definition consistent {error : Type}
    (build_Import : string → string → error + Package) (m : t) : Prop :=
  cache_wf m ∧ edges_resolved m ∧ edges_justified build_Import m.

(** The invariant as a property of a call: kept by the final state and by
    every state on the way. *)
Definition keeps_consistent {error : Type}
    (build_Import : string → string → error + Package)
    (m : t) (path srcDir : string)
    (r : error + Package) (m' : t) (tr : list t) : Prop :=
  consistent build_Import m →
  consistent build_Import m' ∧ Forall (consistent build_Import) tr.

(** The import [im] of [pkg], resolved and recorded as an edge. *)
Definition import_recorded {error : Type}
    (build_Import : string → string → error + Package)
    (m : t) (pkg : Package) (im : string) : Prop :=
  ∃ q, build_Import im (Dir pkg) = inr q ∧
       ImportPath q ∈ cached m ∧ ImportPath q ∈ edges m (ImportPath pkg).

(** All the imports of the cached package [P], the cgo pseudo-package
    apart, are resolved and recorded. *)
Definition imports_recorded {error : Type}
    (build_Import : string → string → error + Package)
    (m : t) (P : string) : Prop :=
  ∃ pkg, PackageCache.packages (packages m) !! P = Some pkg ∧
    ∀ im, im ∈ Imports pkg → im ≠ "C"%string →
      import_recorded build_Import m pkg im.

(** The cached packages are complete, those still being walked ([stk])
    apart. *)
Definition complete_but {error : Type}
    (build_Import : string → string → error + Package)
    (stk : gset string) (m : t) : Prop :=
  ∀ P, P ∈ cached m → P ∉ stk → imports_recorded build_Import m P.

(** Completeness as a property of a call that returns a package. *)
Definition keeps_complete {error : Type}
    (build_Import : string → string → error + Package)
    (m : t) (path srcDir : string)
    (r : error + Package) (m' : t) (tr : list t) : Prop :=
  ∀ stk p, r = inr p → cache_wf m →
    complete_but build_Import stk m → complete_but build_Import stk m'.

(** The import [im] of [pkg] has been resolved: the resolver knows it and
    its package is in the cache. *)
Definition import_resolved {error : Type}
    (build_Import : string → string → error + Package)
    (m : t) (pkg : Package) (im : string) : Prop :=
  ∃ q, build_Import im (Dir pkg) = inr q ∧ ImportPath q ∈ cached m.

(** The edge table holds a key only for packages all of whose direct
    imports (the cgo pseudo-package apart) are resolved. *)
Definition entry_after_all_imports {error : Type}
    (build_Import : string → string → error + Package) (m : t) : Prop :=
  ∀ P pkg, P ∈ dom (dependencies m) →
    PackageCache.packages (packages m) !! P = Some pkg →
    ∀ im, im ∈ Imports pkg → im ≠ "C"%string →
      import_resolved build_Import m pkg im.

(** A resolver for two packages that import each other. *)
Definition cycle_resolver (path srcDir : string) : string + Package :=
  if String.eqb path "A" then inr (mkPackage "A" "/src/A" ["B"])
  else if String.eqb path "B" then inr (mkPackage "B" "/src/B" ["A"])
  else inl "cannot find package"%string.

(** A small source tree: P imports X and Y; Q imports cgo, X, a package
    that does not exist, and zlib. The import lists are sorted, as
    [go/build] returns them. *)
Definition sample_resolver (path srcDir : string) : string + Package :=
  if String.eqb path "P" then inr (mkPackage "P" "/src/P" ["X"; "Y"])
  else if String.eqb path "X" then inr (mkPackage "X" "/src/X" [])
  else if String.eqb path "Y" then inr (mkPackage "Y" "/src/Y" [])
  else if String.eqb path "zlib" then inr (mkPackage "zlib" "/src/zlib" [])
  else if String.eqb path "Q"
       then inr (mkPackage "Q" "/src/Q" ["C"; "X"; "missing"; "zlib"])
  else inl ("cannot find package " ++ path)%string.

(** A package that imports cgo and X, with a resolver that does not know
    "C". *)
Definition cgo_resolver (path srcDir : string) : string + Package :=
  if String.eqb path "G" then inr (mkPackage "G" "/src/G" ["C"; "X"])
  else if String.eqb path "X" then inr (mkPackage "X" "/src/X" [])
  else inl ("cannot find package " ++ path)%string.

(** The manager after [Import] of P in the small source tree. *)
Definition manager_with_P : t :=
  match Import sample_resolver 2 NewDependencyManager "P" "/" with
  | Returned _ m _ => m
  | OutOfFuel => NewDependencyManager
  end.

(** Reading a line of the output back: the text of the number is what
    follows the leading spaces up to the next space, the identifier is
    what follows that space, without the final newline. *)
Fixpoint lstrip (s : string) : string :=
  match s with
  | String c s' => if Ascii.eqb c " " then lstrip s' else s
  | EmptyString => s
  end.

Fixpoint until_space (s : string) : string :=
  match s with
  | String c s' => if Ascii.eqb c " " then EmptyString else String c (until_space s')
  | EmptyString => EmptyString
  end.

Fixpoint after_space (s : string) : string :=
  match s with
  | String c s' => if Ascii.eqb c " " then s' else after_space s'
  | EmptyString => EmptyString
  end.

Fixpoint but_last (s : string) : string :=
  match s with
  | String c EmptyString => EmptyString
  | String c s' => String c (but_last s')
  | EmptyString => EmptyString
  end.

Definition line_fields (line : string) : string * string :=
  (until_space (lstrip line), but_last (after_space (lstrip line))).

Fixpoint has_space (s : string) : bool :=
  match s with
  | String c s' => Ascii.eqb c " " || has_space s'
  | EmptyString => false
  end.

(** A line of the output: the identifier [im] with the number of
    identifiers that paths of kept nodes join to it, itself included. *)
Definition counted_line (dm : t) (keep : string → bool)
    (line im : string) : Prop :=
  ∃ visited : gset string,
    (∀ x, x ∈ visited ↔ kept_path dm keep im x) ∧
    (1 ≤ size visited)%nat ∧
    line = Printf_6d_s (Z.of_nat (size visited)) im.

(** The requests [good] can all be resolved, and so can the imports of
    what they resolve to, the cgo marker apart: a source tree in which
    nothing is missing. Nothing is asked of the resolver on "C". *)
Definition resolvable {error : Type}
    (build_Import : string → string → error + Package)
    (good : string → string → Prop) : Prop :=
  ∀ path srcDir, good path srcDir →
    ∃ pkg, build_Import path srcDir = inr pkg ∧
      ∀ im, im ∈ Imports pkg → im ≠ "C"%string → good im (Dir pkg).

(** No key leaves the edge table and no edge set loses a member. *)
Definition table_grows (m m' : t) : Prop :=
  ∀ k s, dependencies m !! k = Some s →
    ∃ s', dependencies m' !! k = Some s' ∧ s ⊆ s'.

(** ** Properties of [IsStandardPackage] *)
Section StandardPackage.

Import strings.

Lemma Index_lower s substr : -1 ≤ Index s substr.
Proof.
  induction s as [|a s IH]; cbn [Index].
  - destruct (HasPrefix _ substr); lia.
  - destruct (HasPrefix _ substr); [lia|].
    destruct (Z.ltb_spec (Index s substr) 0); lia.
Qed.

Lemma HasPrefix_char (c a : ascii) s :
  HasPrefix (String a s) (String c EmptyString) = Ascii.eqb a c.
Proof.
  simpl. rewrite Ascii.eqb_sym.
  destruct (Ascii.eqb a c); [by destruct s|done].
Qed.

(** Searching one byte: [Contains] is the occurrence test. *)
Lemma Contains_dot s : Contains s "." = has_dot s.
Proof.
  unfold Contains. induction s as [|a s IH]; [done|].
  cbn [Index has_dot]. rewrite HasPrefix_char.
  destruct (Ascii.eqb a "."); [done|]. simpl orb. rewrite <- IH.
  pose proof (Index_lower s ".").
  destruct (Z.ltb_spec (Index s ".") 0);
    destruct (Z.leb_spec 0 (Index s "."));
    destruct (Z.leb_spec 0 (Index s "." + 1)); try lia; done.
Qed.

(** Where the first slash is: either there is none and the whole string
    is the first segment, or [s[:m]] is. *)
Lemma Index_slash s :
  (Index s "/" = -1 ∧ first_segment s = s) ∨
  (0 ≤ Index s "/" ∧ take (Z.to_nat (Index s "/")) s = first_segment s).
Proof.
  induction s as [|a s IH]; [by left|].
  cbn [Index first_segment]. rewrite HasPrefix_char.
  destruct (Ascii.eqb a "/"); [by right|].
  destruct IH as [[-> ->]|[Hm Ht]]; [by left|right].
  destruct (Z.ltb_spec (Index s "/") 0); [lia|].
  split; [lia|].
  replace (Z.to_nat (Index s "/" + 1)) with (S (Z.to_nat (Index s "/"))) by lia.
  simpl. by rewrite Ht.
Qed.

Lemma genSplit_loop_nonempty k s sep : genSplit_loop k s sep ≠ [].
Proof. destruct k; simpl; [done|]. by destruct (_ <? _). Qed.

Lemma genSplit_loop_head k s sep :
  genSplit_loop k s sep !! 0%nat =
    Some (match k with
          | O => s
          | S _ => if Index s sep <? 0 then s else take (Z.to_nat (Index s sep)) s
          end).
Proof. destruct k; simpl; [done|]. by destruct (_ <? _). Qed.

Lemma SplitN_slash_head s : SplitN s "/" 2 !! 0%nat = Some (first_segment s).
Proof.
  unfold SplitN, genSplit. cbn [Z.eqb String.eqb Ascii.eqb Z.ltb Z.compare].
  destruct s as [|a s]; [done|].
  assert ((len (String a s) + 1 <? 2) = false) as ->.
  { apply Z.ltb_ge. unfold len. simpl String.length. lia. }
  rewrite genSplit_loop_head. simpl Z.to_nat. f_equal.
  destruct (Index_slash (String a s)) as [[-> ->]|[Hm Ht]]; [done|].
  destruct (Z.ltb_spec (Index (String a s) "/") 0); [lia|done].
Qed.

Example SplitN_runs :
  SplitN "a/b/c" "/" 2 = ["a"; "b/c"]%string ∧
  SplitN "a/b/c" "/" (-1) = ["a"; "b"; "c"]%string ∧
  SplitN "a//" "/" 5 = ["a"; ""; ""]%string ∧
  SplitN "" "/" 2 = [""]%string ∧
  SplitN "" "" 2 = [].
Proof. by vm_compute. Qed.

Example IsStandardPackage_runs :
  IsStandardPackage "net/http" = Some true ∧
  IsStandardPackage "github.com/dmage/go-import-inspector" = Some false ∧
  IsStandardPackage "internal/v1.2" = Some true ∧
  IsStandardPackage "" = Some true.
Proof. by vm_compute. Qed.

Lemma IsStandardPackage_by_spec importPath :
  IsStandardPackage importPath = Some (standard_by_spec importPath).
Proof.
  unfold IsStandardPackage, standard_by_spec.
  by rewrite SplitN_slash_head, Contains_dot.
Qed.

(** C7: [IsStandardPackage] returns true exactly when the part of the
    import path before its first slash contains no dot. The function
    takes the string alone: no resolver, cache or manager is consulted. *)
Theorem IsStandardPackage_first_segment (importPath : string) :
  IsStandardPackage importPath = Some (standard_by_spec importPath) ∧
  (IsStandardPackage importPath = Some true ↔
     has_dot (first_segment importPath) = false).
Proof.
  pose proof (IsStandardPackage_by_spec importPath) as E.
  split; [done|]. rewrite E. unfold standard_by_spec.
  destruct (has_dot _); simpl; split; congruence.
Qed.

(** C9: [IsStandardPackage] never panics: with a positive limit and a
    non-empty separator (here "/") [strings.SplitN] returns a non-empty
    slice, so [x[0]] is in bounds for every input, and the empty import
    path is classified as standard. *)
Theorem IsStandardPackage_total :
  (∀ s sep n, 0 < n → sep ≠ EmptyString → SplitN s sep n ≠ []) ∧
  (∀ importPath, is_Some (SplitN importPath "/" 2 !! 0%nat) ∧
                 ∃ b, IsStandardPackage importPath = Some b) ∧
  IsStandardPackage "" = Some true.
Proof.
  split; [|split; [|done]].
  - intros s sep n Hn Hsep. unfold SplitN, genSplit.
    destruct (Z.eqb_spec n 0); [lia|].
    destruct (String.eqb_spec sep EmptyString); [done|].
    apply genSplit_loop_nonempty.
  - intros importPath. split.
    + rewrite SplitN_slash_head. eauto.
    + eexists. apply IsStandardPackage_by_spec.
Qed.

Lemma IsStandardPackage_total_witness :
  SplitN "" "/" 2 ≠ [] ∧ IsStandardPackage "net/http" = Some true.
Proof.
  split.
  - apply (proj1 IsStandardPackage_total); [lia|done].
  - destruct (proj2 (proj1 (proj2 IsStandardPackage_total) "net/http"))
      as [b Hb].
    rewrite Hb. f_equal. vm_compute in Hb. congruence.
Defined.

End StandardPackage.

(** ** The closure counter *)

Section CountDepsFacts.

Variable range_keys : string → gset string → list string.
Variable m : t.
Variable keep : string → bool.

Lemma addDeps_pruned fuel deps path :
  keep path = false → addDeps range_keys (S fuel) m keep deps path = Some deps.
Proof. intros H. simpl. by rewrite H. Qed.

Lemma addDeps_seen fuel deps path :
  path ∈ deps → addDeps range_keys (S fuel) m keep deps path = Some deps.
Proof.
  intros H. simpl. destruct (keep path); [|done]. simpl.
  by rewrite decide_True.
Qed.

(** Every run of [addDeps] is built from three kinds of step. *)
Lemma addDeps_rule (P : gset string → string → gset string → Prop) :
  (∀ deps path, keep path = false → P deps path deps) →
  (∀ deps path, keep path = true → path ∈ deps → P deps path deps) →
  (∀ deps path deps',
      keep path = true → path ∉ deps →
      chain P (range_keys path (edges m path)) ({[path]} ∪ deps) deps' →
      P deps path deps') →
  ∀ fuel deps path deps',
    addDeps range_keys fuel m keep deps path = Some deps' → P deps path deps'.
Proof.
  intros Hprune Hseen Hnew. induction fuel as [|fuel IH]; [done|].
  intros deps path deps'. simpl.
  destruct (keep path) eqn:Hk; simpl; [|intros [= <-]; auto].
  destruct (decide (path ∈ deps)) as [Hin|Hin]; [intros [= <-]; auto|].
  intros Hloop. apply Hnew; [done..|].
  revert Hloop. generalize ({[path]} ∪ deps).
  induction (range_keys path (edges m path)) as [|im rest IHl];
    intros d; simpl.
  - intros [= <-]. constructor.
  - destruct (addDeps range_keys fuel m keep d im) as [d1|] eqn:E; [|done].
    intros Hrest. econstructor; eauto.
Qed.

Lemma chain_grows_kept ims d d' :
  chain (grows_kept keep) ims d d' →
  d ⊆ d' ∧ (∀ im, im ∈ ims → keep im = true → im ∈ d') ∧
  ∀ x, x ∈ d' → x ∉ d → keep x = true.
Proof.
  induction 1 as [d|im rest d d1 d' (Hs & Hp & Hk) _ (IHs & IHp & IHk)].
  - split; [done|]. split; [by intros ? ?%elem_of_nil|done].
  - split; [set_solver|]. split.
    + intros im' [->|Hin]%elem_of_cons Hkeep; [set_solver|eauto].
    + intros x Hx Hnx. destruct (decide (x ∈ d1)); eauto.
Qed.

Lemma addDeps_grows_kept fuel deps path deps' :
  addDeps range_keys fuel m keep deps path = Some deps' →
  grows_kept keep deps path deps'.
Proof.
  apply addDeps_rule.
  - intros d p Hk. split; [done|]. split; [congruence|done].
  - intros d p Hk Hin. by split; [|split].
  - intros d p d' Hk Hnin (Hs & _ & Hkept)%chain_grows_kept.
    split; [set_solver|]. split; [set_solver|].
    intros x Hx Hnx. destruct (decide (x = p)) as [->|]; [done|].
    apply Hkept; set_solver.
Qed.

Lemma addDeps_mono fuel deps path deps' :
  addDeps range_keys fuel m keep deps path = Some deps' → deps ⊆ deps'.
Proof. intros Hrun. by apply addDeps_grows_kept in Hrun as [? _]. Qed.

Lemma addDeps_keep_inv fuel deps path deps' :
  (∀ id, id ∈ deps → keep id = true) →
  addDeps range_keys fuel m keep deps path = Some deps' →
  ∀ id, id ∈ deps' → keep id = true.
Proof.
  intros Hinv Hrun id Hid.
  apply addDeps_grows_kept in Hrun as (_ & _ & Hk).
  destruct (decide (id ∈ deps)); eauto.
Qed.

Lemma kept_path_keep_l x y : kept_path m keep x y → keep x = true.
Proof. by destruct 1. Qed.

Lemma kept_path_keep_r x y : kept_path m keep x y → keep y = true.
Proof. by induction 1. Qed.

Lemma edges_targets p : edges m p ⊆ targets m.
Proof.
  unfold edges, targets. destruct (dependencies m !! p) as [s|] eqn:E;
    simpl; [|set_solver].
  intros x Hx. apply elem_of_union_list. exists s. split; [|done].
  apply list_elem_of_fmap. exists (p, s). split; [done|].
  by apply elem_of_map_to_list.
Qed.

Lemma kept_path_targets x y : kept_path m keep x y → y = x ∨ y ∈ targets m.
Proof.
  induction 1 as [x Hk|x y z Hk Hy Hp IH]; [by left|right].
  destruct IH as [->|IH]; [|done]. by apply (edges_targets x).
Qed.

(** From here on the order of [range] is any enumeration of the keys. *)
Hypothesis range_keys_perm : ∀ p s, range_keys p s ≡ₚ elements s.

Lemma elem_of_range_keys p s x : x ∈ range_keys p s ↔ x ∈ s.
Proof. by rewrite range_keys_perm, elem_of_elements. Qed.

Lemma chain_weaken (P Q : gset string → string → gset string → Prop) ims d d' :
  (∀ a b c, P a b c → Q a b c) → chain P ims d d' → chain Q ims d d'.
Proof. intros HPQ. induction 1; econstructor; eauto. Qed.

Lemma chain_explores ims d d' :
  chain (explores m keep) ims d d' →
  ∀ x, x ∈ d' → x ∉ d →
    (∃ im, im ∈ ims ∧ kept_path m keep im x) ∧
    ∀ y, y ∈ edges m x → keep y = true → y ∈ d'.
Proof.
  induction 1 as [d|im rest d d1 d' [Hg He] Hc IH]; [done|].
  intros x Hx Hnx.
  apply (chain_weaken _ (grows_kept keep)) in Hc; [|by intros ??? []].
  apply chain_grows_kept in Hc as (Hs & _).
  destruct (decide (x ∈ d1)) as [Hx1|Hx1].
  - destruct (He x Hx1 Hnx) as [Hp Hsucc]. split.
    + exists im. split; [left|done].
    + intros y Hy Hky. apply Hs; eauto.
  - destruct (IH x Hx Hx1) as [(im' & Him' & Hp) Hsucc]. split; [|done].
    exists im'. split; [by right|done].
Qed.

Lemma addDeps_explores fuel deps path deps' :
  addDeps range_keys fuel m keep deps path = Some deps' →
  explores m keep deps path deps'.
Proof.
  apply addDeps_rule.
  - intros d p Hk. split; [|done]. split; [done|]. split; [congruence|done].
  - intros d p Hk Hin. split; [|done]. by split; [|split].
  - intros d p d' Hk Hnin Hc.
    pose proof (chain_explores _ _ _ Hc) as He.
    apply (chain_weaken _ (grows_kept keep)) in Hc; [|by intros ??? []].
    apply chain_grows_kept in Hc as (Hs & Hims & Hkept).
    split.
    + split; [set_solver|]. split; [set_solver|].
      intros x Hx Hnx. destruct (decide (x = p)) as [->|]; [done|].
      apply Hkept; set_solver.
    + intros x Hx Hnx. destruct (decide (x = p)) as [->|Hne].
      * split; [by constructor|]. intros y Hy Hky.
        apply Hims; [|done]. by apply elem_of_range_keys.
      * destruct (He x Hx) as [(im & Him & Hp) Hsucc]; [set_solver|].
        split; [|done]. apply kept_path_edge with im; [done| |done].
        by apply elem_of_range_keys in Him.
Qed.

(** The visited set of a whole traversal: exactly the nodes that a path
    of kept nodes connects to the root. *)
Lemma addDeps_reachable fuel root deps :
  addDeps range_keys fuel m keep ∅ root = Some deps →
  ∀ x, x ∈ deps ↔ kept_path m keep root x.
Proof.
  intros Hrun. apply addDeps_explores in Hrun as [(_ & Hroot & _) He].
  intros x. split.
  - intros Hx. by apply He.
  - intros Hp. assert (root ∈ deps) as Hin.
    { apply Hroot. by eapply kept_path_keep_l. }
    assert (∀ a y, a ∈ deps → y ∈ edges m a → keep y = true → y ∈ deps)
      as Hclosed.
    { intros a y Ha. by apply (He a Ha). }
    clear He Hroot. revert Hin.
    induction Hp as [a Hk|a y z Hk Hy Hp IH]; [done|].
    intros Ha. apply IH, (Hclosed a); [done..|]. by eapply kept_path_keep_l.
Qed.

(** Enough fuel: one more than the number of nodes not yet visited. *)
Lemma addDeps_terminates fuel : ∀ deps path,
  (size ((targets m ∪ {[path]}) ∖ deps) < fuel)%nat →
  is_Some (addDeps range_keys fuel m keep deps path).
Proof.
  induction fuel as [|fuel IH]; [lia|]. intros deps path Hfuel. simpl.
  destruct (keep path); simpl; [|done].
  destruct (decide (path ∈ deps)) as [Hin|Hin]; [done|].
  assert (∀ d, {[path]} ∪ deps ⊆ d → (size (targets m ∖ d) < fuel)%nat) as Hd.
  { intros d Hsub.
    assert (targets m ∖ d ⊂ (targets m ∪ {[path]}) ∖ deps) as Hlt.
    { split; [set_solver|]. intros Hsup.
      assert (path ∈ targets m ∖ d) by set_solver. set_solver. }
    apply subset_size in Hlt. lia. }
  assert (∀ im, im ∈ range_keys path (edges m path) → im ∈ targets m) as Hims.
  { intros im Him%elem_of_range_keys. by apply (edges_targets path). }
  assert (∀ ims d, (∀ im, im ∈ ims → im ∈ targets m) → {[path]} ∪ deps ⊆ d →
            is_Some (addDeps_range (addDeps range_keys fuel m keep) ims d))
    as Hloop; [|by apply Hloop].
  clear Hims. induction ims as [|im rest IHl]; intros d Hims Hsub; simpl; [done|].
  destruct (IH d im) as [d1 E].
  { specialize (Hd d Hsub). specialize (Hims im ltac:(left)).
    assert (size ((targets m ∪ {[im]}) ∖ d) ≤ size (targets m ∖ d))%nat.
    { apply subseteq_size. set_solver. }
    lia. }
  rewrite E. apply IHl.
  - intros im' Him'. apply Hims. by right.
  - apply addDeps_mono in E. set_solver.
Qed.

End CountDepsFacts.

Lemma CoundDepsRecursive_size range_keys fuel m root keep deps :
  addDeps range_keys fuel m keep ∅ root = Some deps →
  CoundDepsRecursive range_keys fuel m root keep = Some (Z.of_nat (size deps)).
Proof. unfold CoundDepsRecursive. by intros ->. Qed.

Lemma CoundDepsRecursive_inv range_keys fuel m root keep n :
  CoundDepsRecursive range_keys fuel m root keep = Some n →
  ∃ deps, addDeps range_keys fuel m keep ∅ root = Some deps ∧
          n = Z.of_nat (size deps).
Proof.
  unfold CoundDepsRecursive.
  destruct (addDeps _ _ _ _ _ _) as [deps|]; [|done].
  intros [= <-]. eauto.
Qed.

Lemma targets_subseteq m (S : gset string) :
  (∀ p, edges m p ⊆ S) → targets m ⊆ S.
Proof.
  intros Hedges x (X & HX & Hx)%elem_of_union_list.
  apply list_elem_of_fmap in HX as ([k X'] & -> & Hk).
  apply elem_of_map_to_list in Hk. apply (Hedges k).
  unfold edges. by rewrite Hk.
Qed.

Lemma size_union_le (X Y : gset string) : (size (X ∪ Y) ≤ size X + size Y)%nat.
Proof.
  rewrite size_union_alt.
  assert (size (Y ∖ X) ≤ size Y)%nat; [|lia].
  apply subseteq_size. set_solver.
Qed.

Section Diamond.

Variables a b c d : string.
Hypothesis distinct : a ≠ b ∧ a ≠ c ∧ a ≠ d ∧ b ≠ c ∧ b ≠ d ∧ c ≠ d.

Lemma diamond_edges :
  edges (diamond a b c d) a = {[b; c]} ∧
  edges (diamond a b c d) b = {[d]} ∧
  edges (diamond a b c d) c = {[d]}.
Proof.
  destruct distinct as (? & ? & ? & ? & ? & ?).
  unfold edges, diamond. simpl. by simplify_map_eq.
Qed.

Lemma diamond_targets : targets (diamond a b c d) ⊆ {[b; c; d]}.
Proof.
  apply targets_subseteq. intros p. unfold edges, diamond. simpl.
  destruct (_ !! p) as [s|] eqn:E; simpl; [|set_solver].
  apply lookup_insert_Some in E as [[_ <-]|[_ E]]; [set_solver|].
  apply lookup_insert_Some in E as [[_ <-]|[_ E]]; [set_solver|].
  apply lookup_insert_Some in E as [[_ <-]|[_ E]]; [set_solver|done].
Qed.

Lemma diamond_reachable x :
  kept_path (diamond a b c d) (λ _, true) a x ↔ x ∈ ({[a; b; c; d]} : gset string).
Proof.
  destruct diamond_edges as (Ha & Hb & Hc). split.
  - intros [->|Hx]%kept_path_targets; [set_solver|].
    apply diamond_targets in Hx. set_solver.
  - assert (kept_path (diamond a b c d) (λ _, true) b d) as Hbd.
    { apply kept_path_edge with d; [done|rewrite Hb; set_solver|by constructor]. }
    rewrite !elem_of_union, !elem_of_singleton.
    intros [[[->| ->]| ->]| ->].
    + by constructor.
    + apply kept_path_edge with b; [done|rewrite Ha; set_solver|by constructor].
    + apply kept_path_edge with c; [done|rewrite Ha; set_solver|by constructor].
    + apply kept_path_edge with b; [done|rewrite Ha; set_solver|done].
Qed.

Lemma diamond_size : size ({[a; b; c; d]} : gset string) = 4%nat.
Proof.
  destruct distinct as (? & ? & ? & ? & ? & ?).
  rewrite !size_union, !size_singleton by set_solver. done.
Qed.

Lemma diamond_fuel : (size (targets (diamond a b c d) ∪ {[a]}) ≤ 4)%nat.
Proof.
  rewrite <- diamond_size. apply subseteq_size.
  pose proof diamond_targets. set_solver.
Qed.

End Diamond.

(** C4: with enough fuel [CoundDepsRecursive] returns the number of
    distinct nodes that a path of filter-surviving nodes connects to the
    root: the visited set holds each of them, and nothing else, and the
    count is the length of a duplicate-free enumeration of it, whatever
    the sharing or the cycles of the graph and whatever the iteration
    order. On a diamond a→b, a→c, b→d, c→d of four distinct nodes with the
    always-true filter the count is 4. *)
Theorem CoundDepsRecursive_counts_once
    (range_keys : string → gset string → list string)
    (range_keys_perm : ∀ p s, range_keys p s ≡ₚ elements s) :
  (∀ m keep root fuel,
     (size (targets m ∪ {[root]}) < fuel)%nat →
     ∃ deps,
       addDeps range_keys fuel m keep ∅ root = Some deps ∧
       (∀ x, x ∈ deps ↔ kept_path m keep root x) ∧
       NoDup (elements deps) ∧
       CoundDepsRecursive range_keys fuel m root keep
         = Some (Z.of_nat (length (elements deps)))) ∧
  (∀ a b c d fuel,
     a ≠ b ∧ a ≠ c ∧ a ≠ d ∧ b ≠ c ∧ b ≠ d ∧ c ≠ d →
     (4 < fuel)%nat →
     CoundDepsRecursive range_keys fuel (diamond a b c d) a (λ _, true) = Some 4).
Proof.
  assert (∀ m keep root fuel,
     (size (targets m ∪ {[root]}) < fuel)%nat →
     ∃ deps,
       addDeps range_keys fuel m keep ∅ root = Some deps ∧
       (∀ x, x ∈ deps ↔ kept_path m keep root x) ∧
       NoDup (elements deps) ∧
       CoundDepsRecursive range_keys fuel m root keep
         = Some (Z.of_nat (length (elements deps)))) as Hgen.
  { intros m keep root fuel Hfuel.
    destruct (addDeps_terminates range_keys m keep range_keys_perm fuel ∅ root)
      as [deps Hrun].
    { by rewrite difference_empty_L. }
    exists deps. split; [done|]. split; [by eapply addDeps_reachable|].
    split; [apply NoDup_elements|]. by apply CoundDepsRecursive_size. }
  split; [done|]. intros a b c d fuel Hdistinct Hfuel.
  destruct (Hgen (diamond a b c d) (λ _, true) a fuel)
    as (deps & Hrun & Hreach & _ & _).
  { pose proof (diamond_fuel a b c d Hdistinct). lia. }
  rewrite (CoundDepsRecursive_size _ _ _ _ _ _ Hrun).
  assert (deps = {[a; b; c; d]}) as ->.
  { apply set_eq. intros x. by rewrite Hreach, diamond_reachable. }
  by rewrite diamond_size.
Qed.

Lemma CoundDepsRecursive_counts_once_witness :
  CoundDepsRecursive (λ _ s, elements s) 5 (diamond "A" "B" "C" "D") "A"
    (λ _, true) = Some 4.
Proof.
  apply (proj2 (CoundDepsRecursive_counts_once (λ _ s, elements s)
                  (λ _ _, reflexivity _)) "A" "B" "C" "D" 5%nat);
    [by repeat split|lia].
Defined.

Lemma chain3_fuel (a b c : string) : (size (targets (chain3 a b c) ∪ {[a]}) ≤ 3)%nat.
Proof.
  assert (targets (chain3 a b c) ⊆ {[b; c]}) as Htargets.
  { apply targets_subseteq. intros p. unfold edges, chain3. simpl.
    destruct (_ !! p) as [s|] eqn:E; simpl; [|set_solver].
    apply lookup_insert_Some in E as [[_ <-]|[_ E]]; [set_solver|].
    apply lookup_insert_Some in E as [[_ <-]|[_ E]]; [set_solver|done]. }
  transitivity (size ({[b; c]} ∪ {[a]} : gset string)).
  { apply subseteq_size. set_solver. }
  etransitivity; [apply size_union_le|].
  etransitivity; [apply Nat.add_le_mono_r, size_union_le|].
  by rewrite !size_singleton.
Qed.

Section Chain3.

Variables a b c : string.
Hypothesis a_not_b : a ≠ b.
Variable keep : string → bool.
Hypothesis prune_b : keep b = false.

Lemma chain3_edges : edges (chain3 a b c) a = {[b]}.
Proof. unfold edges, chain3. simpl. by simplify_map_eq. Qed.

Lemma chain3_reachable x : kept_path (chain3 a b c) keep a x → x = a.
Proof.
  intros Hp. inversion Hp as [|a' y z Hk Hy Hyz]; subst; [done|].
  rewrite chain3_edges in Hy. apply elem_of_singleton in Hy as ->.
  apply kept_path_keep_l in Hyz. congruence.
Qed.

End Chain3.

(** C3: a node that fails the filter is neither marked nor expanded (the
    call returns the visited set unchanged, within its own frame), so
    whatever is visited is joined to the root by a path of kept nodes
    only. On a chain a→b→c with [keep b] false and [keep c] true, neither
    b nor c is counted. *)
Theorem addDeps_prunes_subtree
    (range_keys : string → gset string → list string)
    (range_keys_perm : ∀ p s, range_keys p s ≡ₚ elements s) :
  (∀ fuel m keep deps id,
     keep id = false → addDeps range_keys (S fuel) m keep deps id = Some deps) ∧
  (∀ fuel m keep root deps x,
     addDeps range_keys fuel m keep ∅ root = Some deps →
     x ∈ deps → kept_path m keep root x) ∧
  (∀ a b c keep fuel,
     a ≠ b → a ≠ c → keep b = false → keep c = true → (3 < fuel)%nat →
     ∃ deps,
       addDeps range_keys fuel (chain3 a b c) keep ∅ a = Some deps ∧
       (b ∉ deps) ∧ (c ∉ deps) ∧
       CoundDepsRecursive range_keys fuel (chain3 a b c) a keep
         = Some (if keep a then 1 else 0)).
Proof.
  split; [intros; by apply addDeps_pruned|].
  split.
  { intros fuel m keep root deps x Hrun Hx.
    by apply (addDeps_reachable range_keys m keep range_keys_perm fuel root deps). }
  intros a b c keep fuel Hab Hac Hb Hc Hfuel.
  destruct (addDeps_terminates range_keys (chain3 a b c) keep range_keys_perm
              fuel ∅ a) as [deps Hrun].
  { pose proof (chain3_fuel a b c). rewrite difference_empty_L. lia. }
  pose proof (addDeps_reachable range_keys (chain3 a b c) keep range_keys_perm
                fuel a deps Hrun) as Hreach.
  exists deps. split; [done|].
  assert (∀ x, x ∈ deps → x = a) as Honly.
  { intros x Hx%Hreach. by apply (chain3_reachable a b c Hab keep Hb). }
  split; [intros ?%Honly; congruence|].
  split; [intros ?%Honly; congruence|].
  rewrite (CoundDepsRecursive_size _ _ _ _ _ _ Hrun). f_equal.
  destruct (keep a) eqn:Ha.
  - assert (deps = {[a]}) as ->; [|by rewrite size_singleton].
    apply set_eq. intros x. rewrite elem_of_singleton. split; [auto|].
    intros ->. apply Hreach. by constructor.
  - assert (deps = ∅) as ->; [|done].
    apply set_eq. intros x. split; [|set_solver].
    intros Hx. pose proof (Honly x Hx) as ->.
    apply Hreach, kept_path_keep_l in Hx. congruence.
Qed.

Lemma addDeps_prunes_subtree_witness :
  ∃ deps,
    addDeps (λ _ s, elements s) 4 (chain3 "A" "B" "C")
      (λ p, negb (String.eqb p "B")) ∅ "A" = Some deps ∧
    ("B" ∉ deps) ∧ ("C" ∉ deps) ∧
    CoundDepsRecursive (λ _ s, elements s) 4 (chain3 "A" "B" "C") "A"
      (λ p, negb (String.eqb p "B")) = Some 1.
Proof.
  apply (proj2 (proj2 (addDeps_prunes_subtree (λ _ s, elements s)
                         (λ _ _, reflexivity _)))
           "A" "B" "C" (λ p, negb (String.eqb p "B")) 4%nat);
    [done|done|reflexivity|reflexivity|lia].
Defined.

(** C8: when the root fails the filter the count is 0, whatever the edge
    table records for it. *)
Theorem CoundDepsRecursive_root_filtered
    (range_keys : string → gset string → list string)
    (m : DependencyManager.t) (X : string) (keep : string → bool) (fuel : nat) :
  keep X = false →
  CoundDepsRecursive range_keys (S fuel) m X keep = Some 0.
Proof.
  intros HX. unfold CoundDepsRecursive. by rewrite addDeps_pruned.
Qed.

Lemma CoundDepsRecursive_root_filtered_witness :
  CoundDepsRecursive (λ _ s, elements s) 1 (diamond "A" "B" "C" "D") "A"
    (λ p, negb (String.eqb p "A")) = Some 0.
Proof.
  apply (CoundDepsRecursive_root_filtered (λ _ s, elements s)
           (diamond "A" "B" "C" "D") "A"
           (λ p, negb (String.eqb p "A")) 0).
  reflexivity.
Defined.

(** C10: membership in the visited set implies the filter holds. Every
    call of [addDeps], recursive ones included, preserves this; so the set
    whose size [CoundDepsRecursive] returns holds kept nodes only, and
    with enough fuel it does return. *)
Theorem addDeps_visited_kept
    (range_keys : string → gset string → list string) :
  (∀ fuel m keep deps path deps',
     (∀ id, id ∈ deps → keep id = true) →
     addDeps range_keys fuel m keep deps path = Some deps' →
     ∀ id, id ∈ deps' → keep id = true) ∧
  (∀ fuel m keep path n,
     CoundDepsRecursive range_keys fuel m path keep = Some n →
     ∃ deps, addDeps range_keys fuel m keep ∅ path = Some deps ∧
             n = Z.of_nat (size deps) ∧
             ∀ id, id ∈ deps → keep id = true) ∧
  ((∀ p s, range_keys p s ≡ₚ elements s) →
   ∀ fuel m keep path,
     (size (targets m ∪ {[path]}) < fuel)%nat →
     ∃ deps : gset string, CoundDepsRecursive range_keys fuel m path keep
               = Some (Z.of_nat (size deps)) ∧
             ∀ id, id ∈ deps → keep id = true).
Proof.
  split; [intros; by eapply addDeps_keep_inv|].
  split.
  - intros fuel m keep path n (deps & Hrun & ->)%CoundDepsRecursive_inv.
    exists deps. split; [done|]. split; [done|].
    eapply addDeps_keep_inv; [|done]. set_solver.
  - intros Hperm fuel m keep path Hfuel.
    destruct (addDeps_terminates range_keys m keep Hperm fuel ∅ path)
      as [deps Hrun].
    { by rewrite difference_empty_L. }
    exists deps. split; [by apply CoundDepsRecursive_size|].
    eapply addDeps_keep_inv; [|done]. set_solver.
Qed.

Lemma addDeps_visited_kept_witness :
  ∃ deps,
    addDeps (λ _ s, elements s) 4 (chain3 "A" "B" "C")
      (λ p, negb (String.eqb p "B")) ∅ "A" = Some deps ∧
    ∀ id, id ∈ deps → negb (String.eqb id "B") = true.
Proof.
  eexists. split; [reflexivity|].
  apply (proj1 (addDeps_visited_kept (λ _ s, elements s))
           4%nat (chain3 "A" "B" "C") (λ p, negb (String.eqb p "B")) ∅ "A").
  - intros id Hid. by apply not_elem_of_empty in Hid.
  - reflexivity.
Defined.

(** ** The graph builder *)

Section ImportFacts.

Context {error : Type}.
Variable build_Import : string → string → error + Package.

Lemma Import_range_steps
    (P : t → string → string → error + Package → t → list t → Prop)
    (rec : t → string → string → Result error) pkg :
  (∀ m path srcDir r m' tr,
      rec m path srcDir = Returned r m' tr → P m path srcDir r m' tr) →
  ∀ ims m trace r m' trace',
    Import_range rec pkg ims m trace = Returned r m' trace' →
    range_steps P pkg ims m trace r m' trace'.
Proof.
  intros Hrec. induction ims as [|im rest IH]; intros m trace r m' trace'.
  - simpl. intros [= <- <- <-]. constructor.
  - simpl. destruct (String.eqb_spec im "C") as [->|Hne].
    + intros Hrun. by apply range_skip, IH.
    + destruct (rec m im (Dir pkg)) as [|[err|q] m1 tr] eqn:E; [done|..].
      * intros [= <- <- <-]. by apply range_fail, Hrec.
      * intros Hrun. eapply range_next; [done|by apply Hrec|by apply IH].
Qed.

(** Every run of [Import] is built from three kinds of step: the
    resolver fails, the package is cached, or it is stored and its
    imports are walked. *)
Lemma Import_rule
    (P : t → string → string → error + Package → t → list t → Prop) :
  (∀ m path srcDir err,
      build_Import path srcDir = inl err → P m path srcDir (inl err) m []) →
  (∀ m path srcDir pkg cachedPkg,
      build_Import path srcDir = inr pkg →
      PackageCache.Get (packages m) (ImportPath pkg) = Some cachedPkg →
      P m path srcDir (inr cachedPkg) m []) →
  (∀ m path srcDir pkg r m' tr,
      build_Import path srcDir = inr pkg →
      PackageCache.Get (packages m) (ImportPath pkg) = None →
      range_steps P pkg (Imports pkg) (put_package m pkg) [put_package m pkg]
        r m' tr →
      P m path srcDir r m' tr) →
  ∀ fuel m path srcDir r m' tr,
    Import build_Import fuel m path srcDir = Returned r m' tr →
    P m path srcDir r m' tr.
Proof.
  intros Herr Hhit Hmiss. induction fuel as [|fuel IH]; [done|].
  intros m path srcDir r m' tr. simpl.
  destruct (build_Import path srcDir) as [err|pkg] eqn:Eb.
  - intros [= <- <- <-]. auto.
  - destruct (PackageCache.Get _ _) as [c|] eqn:Ec.
    + intros [= <- <- <-]. eauto.
    + intros Hrun. eapply Hmiss; [done..|].
      by eapply Import_range_steps.
Qed.

Lemma extends_but_refl X m : extends_but X m m.
Proof. by repeat split. Qed.

Lemma cached_mono m m' :
  PackageCache.packages (packages m) ⊆ PackageCache.packages (packages m') →
  cached m ⊆ cached m'.
Proof. apply subseteq_dom. Qed.

Lemma extends_but_trans X m1 m2 m3 :
  extends_but X m1 m2 → extends_but X m2 m3 → extends_but X m1 m3.
Proof.
  intros (Hp1 & Hf1 & He1 & Hw1) (Hp2 & Hf2 & He2 & Hw2).
  split; [by etrans|]. split; [|split; [|by auto]].
  - intros k Hk HX. pose proof (cached_mono m1 m2 Hp1 k Hk).
    rewrite Hf2 by done. by apply Hf1.
  - intros k. by transitivity (edges m2 k).
Qed.

Lemma extends_but_weaken X Y m m' :
  X ⊆ Y → extends_but X m m' → extends_but Y m m'.
Proof.
  intros HXY (Hp & Hf & He & Hw). repeat split; [done| |done..].
  intros k Hk HY. apply Hf; [done|set_solver].
Qed.

Lemma edges_add_dependency m from to k :
  edges (add_dependency m from to) k =
    if decide (from = k) then {[to]} ∪ edges m k else edges m k.
Proof.
  unfold edges, add_dependency. simpl.
  destruct (decide (from = k)) as [->|Hne].
  - by rewrite lookup_insert_eq.
  - by rewrite lookup_insert_ne.
Qed.

Lemma extends_add_dependency X m from to :
  from ∈ X → extends_but X m (add_dependency m from to).
Proof.
  intros HX. split; [done|]. split; [|split; [|done]].
  - intros k Hk HkX. simpl. rewrite lookup_insert_ne; [done|]. by intros ->.
  - intros k. rewrite edges_add_dependency. case_decide; set_solver.
Qed.

Lemma extends_put_package m pkg :
  PackageCache.Get (packages m) (ImportPath pkg) = None →
  extends_but ∅ m (put_package m pkg).
Proof.
  intros Hmiss. split; [by apply insert_subseteq|].
  split; [done|]. split; [done|].
  intros Hwf k p. simpl. intros [[<- <-]|[_ Hk]]%lookup_insert_Some; eauto.
Qed.

Lemma range_steps_post pkg ims m trace r m' trace' :
  range_steps (Import_post build_Import) pkg ims m trace r m' trace' →
  extends_but {[ImportPath pkg]} m m'.
Proof.
  induction 1 as [m trace|rest m trace r m' trace' _ IH
                 |im rest m trace err m' tr _ [Hext _]
                 |im rest m trace q m1 tr r m' trace' _ [Hext _] _ IH].
  - apply extends_but_refl.
  - done.
  - by apply (extends_but_weaken ∅).
  - eapply extends_but_trans; [|eapply extends_but_trans; [|exact IH]].
    + by apply (extends_but_weaken ∅).
    + apply extends_add_dependency. set_solver.
Qed.

Lemma range_steps_result
    (P : t → string → string → error + Package → t → list t → Prop)
    pkg ims m trace r m' trace' p :
  range_steps P pkg ims m trace r m' trace' → r = inr p → p = pkg.
Proof. induction 1; naive_solver. Qed.

Lemma Import_Import_post fuel m path srcDir r m' tr :
  Import build_Import fuel m path srcDir = Returned r m' tr →
  Import_post build_Import m path srcDir r m' tr.
Proof.
  apply Import_rule; clear.
  - intros m path srcDir err Hb. split; [apply extends_but_refl|done].
  - intros m path srcDir pkg c Hb Hc. split; [apply extends_but_refl|].
    intros p [= <-] Hwf. pose proof (Hwf _ _ Hc) as Hk.
    split; [by rewrite Hk|eauto].
  - intros m path srcDir pkg r m' tr Hb Hc Hsteps.
    pose proof (range_steps_post _ _ _ _ _ _ _ Hsteps) as Hloop.
    pose proof (extends_put_package m pkg Hc) as Hput.
    assert (ImportPath pkg ∉ cached m) as Hfresh.
    { by apply not_elem_of_dom. }
    split.
    + destruct Hput as (Hp1 & Hf1 & He1 & Hw1).
      destruct Hloop as (Hp2 & Hf2 & He2 & Hw2).
      split; [by etrans|]. split; [|split; [|by auto]].
      * intros k Hk _.
        pose proof (cached_mono m (put_package m pkg) Hp1 k Hk).
        rewrite Hf2 by set_solver. by apply Hf1.
      * intros k. by transitivity (edges (put_package m pkg) k).
    + intros p Hr Hwf.
      pose proof (range_steps_result _ _ _ _ _ _ _ _ p Hsteps Hr) as ->.
      split; [|eauto]. destruct Hloop as (Hp2 & _).
      eapply lookup_weaken; [|exact Hp2]. simpl. apply lookup_insert_eq.
Qed.

Lemma range_steps_weaken
    (P Q : t → string → string → error + Package → t → list t → Prop)
    pkg ims m trace r m' trace' :
  (∀ m path srcDir r m' tr, P m path srcDir r m' tr → Q m path srcDir r m' tr) →
  range_steps P pkg ims m trace r m' trace' →
  range_steps Q pkg ims m trace r m' trace'.
Proof.
  intros HPQ. induction 1;
    [apply range_done|by apply range_skip|apply range_fail; auto
    |eapply range_next; eauto].
Qed.

(** The rule again, with [Import_post] known of the recursive calls. *)
Lemma Import_rule_post
    (P : t → string → string → error + Package → t → list t → Prop) :
  (∀ m path srcDir err,
      build_Import path srcDir = inl err → P m path srcDir (inl err) m []) →
  (∀ m path srcDir pkg cachedPkg,
      build_Import path srcDir = inr pkg →
      PackageCache.Get (packages m) (ImportPath pkg) = Some cachedPkg →
      P m path srcDir (inr cachedPkg) m []) →
  (∀ m path srcDir pkg r m' tr,
      build_Import path srcDir = inr pkg →
      PackageCache.Get (packages m) (ImportPath pkg) = None →
      range_steps
        (λ m path srcDir r m' tr,
           P m path srcDir r m' tr ∧
           Import_post build_Import m path srcDir r m' tr)
        pkg (Imports pkg) (put_package m pkg) [put_package m pkg] r m' tr →
      P m path srcDir r m' tr) →
  ∀ fuel m path srcDir r m' tr,
    Import build_Import fuel m path srcDir = Returned r m' tr →
    P m path srcDir r m' tr.
Proof.
  intros Herr Hhit Hmiss. induction fuel as [|fuel IH]; [done|].
  intros m path srcDir r m' tr. simpl.
  destruct (build_Import path srcDir) as [err|pkg] eqn:Eb.
  - intros [= <- <- <-]. auto.
  - destruct (PackageCache.Get _ _) as [c|] eqn:Ec.
    + intros [= <- <- <-]. eauto.
    + intros Hrun. eapply Hmiss; [done..|].
      eapply Import_range_steps; [|done].
      intros m0 p d r0 m0' tr0 E. split; [by apply IH|].
      by eapply Import_Import_post.
Qed.

Lemma Import_cached_mono fuel m path srcDir r m' tr :
  Import build_Import fuel m path srcDir = Returned r m' tr →
  cached m ⊆ cached m'.
Proof.
  intros Hrun. apply Import_Import_post in Hrun as [(Hp & _) _].
  by apply cached_mono.
Qed.

(** More fuel does not change what a call returns. *)
Lemma Import_range_fuel (rec rec' : t → string → string → Result error) pkg :
  (∀ m path srcDir r m' tr,
      rec m path srcDir = Returned r m' tr →
      rec' m path srcDir = Returned r m' tr) →
  ∀ ims m trace r m' trace',
    Import_range rec pkg ims m trace = Returned r m' trace' →
    Import_range rec' pkg ims m trace = Returned r m' trace'.
Proof.
  intros Hrec. induction ims as [|im rest IH]; intros m trace r m' trace';
    simpl; [done|].
  destruct (String.eqb im "C"); [by apply IH|].
  destruct (rec m im (Dir pkg)) as [|[err|q] m1 tr] eqn:E; [done|..];
    rewrite (Hrec _ _ _ _ _ _ E); [done|by apply IH].
Qed.

Lemma Import_fuel_S fuel : ∀ m path srcDir r m' tr,
  Import build_Import fuel m path srcDir = Returned r m' tr →
  Import build_Import (S fuel) m path srcDir = Returned r m' tr.
Proof.
  induction fuel as [|fuel IH]; [done|]. intros m path srcDir r m' tr.
  cbn [Import]. destruct (build_Import path srcDir) as [err|pkg]; [done|].
  destruct (PackageCache.Get _ _); [done|]. by apply Import_range_fuel.
Qed.

Lemma Import_fuel_mono fuel fuel' m path srcDir r m' tr :
  (fuel ≤ fuel')%nat →
  Import build_Import fuel m path srcDir = Returned r m' tr →
  Import build_Import fuel' m path srcDir = Returned r m' tr.
Proof. induction 1; [done|]. intros. by apply Import_fuel_S, IHle. Qed.

(** Termination: every call stores a new identifier before it recurses,
    so the depth is bounded by the identifiers still missing from the
    cache, as soon as the resolver has finitely many of them. *)
Section Termination.

Variable U : gset string.
Hypothesis resolver_range :
  ∀ path srcDir pkg, build_Import path srcDir = inr pkg → ImportPath pkg ∈ U.

Lemma Import_returns fuel : ∀ m path srcDir,
  (size (U ∖ cached m) < fuel)%nat →
  ∃ r m' tr, Import build_Import fuel m path srcDir = Returned r m' tr.
Proof.
  induction fuel as [|fuel IH]; [lia|]. intros m path srcDir Hfuel.
  cbn [Import]. destruct (build_Import path srcDir) as [err|pkg] eqn:Eb;
    [by eauto|].
  destruct (PackageCache.Get _ _) as [c|] eqn:Ec; [by eauto|].
  assert (∀ m1, ImportPath pkg ∈ cached m1 → cached m ⊆ cached m1 →
            (size (U ∖ cached m1) < fuel)%nat) as Hm1.
  { intros m1 Hin Hsub.
    assert (U ∖ cached m1 ⊂ U ∖ cached m) as Hlt.
    { split; [set_solver|]. intros Hsup.
      assert (ImportPath pkg ∈ U ∖ cached m); [|set_solver].
      apply elem_of_difference. split; [by eapply resolver_range|].
      by apply not_elem_of_dom. }
    apply subset_size in Hlt. lia. }
  assert (∀ ims m1 trace,
            ImportPath pkg ∈ cached m1 → cached m ⊆ cached m1 →
            ∃ r m' tr, Import_range (Import build_Import fuel) pkg ims m1 trace
                         = Returned r m' tr) as Hloop.
  { induction ims as [|im rest IHl]; intros m1 trace Hin Hsub; simpl;
      [by eauto|].
    destruct (String.eqb im "C"); [by apply IHl|].
    destruct (IH m1 im (Dir pkg)) as ([err|q] & m2 & tr & E); [by auto|..];
      rewrite E; [by eauto|].
    apply Import_cached_mono in E. apply IHl; set_solver. }
  apply Hloop.
  - apply elem_of_dom. simpl. rewrite lookup_insert_eq. eauto.
  - unfold cached. simpl. rewrite dom_insert_L. set_solver.
Qed.

Lemma Import_total m path srcDir :
  ∃ r m' tr, ∀ fuel,
    (size (U ∖ cached m) < fuel)%nat →
    Import build_Import fuel m path srcDir = Returned r m' tr.
Proof.
  destruct (Import_returns (S (size (U ∖ cached m))) m path srcDir)
    as (r & m' & tr & E); [lia|].
  exists r, m', tr. intros fuel Hfuel.
  eapply Import_fuel_mono; [|done]. lia.
Qed.

End Termination.

Lemma Import_hit fuel m path srcDir pkg cachedPkg :
  build_Import path srcDir = inr pkg →
  PackageCache.Get (packages m) (ImportPath pkg) = Some cachedPkg →
  Import build_Import (S fuel) m path srcDir = Returned (inr cachedPkg) m [].
Proof. intros Hb Hc. simpl. by rewrite Hb, Hc. Qed.

Lemma Import_miss fuel m path srcDir pkg :
  build_Import path srcDir = inr pkg →
  PackageCache.Get (packages m) (ImportPath pkg) = None →
  Import build_Import (S fuel) m path srcDir =
    Import_range (Import build_Import fuel) pkg (Imports pkg)
      (put_package m pkg) [put_package m pkg].
Proof. intros Hb Hc. simpl. by rewrite Hb, Hc. Qed.

Lemma Import_resolver_error fuel m path srcDir err :
  build_Import path srcDir = inl err →
  Import build_Import (S fuel) m path srcDir = Returned (inl err) m [].
Proof. intros Hb. simpl. by rewrite Hb. Qed.

(** Two packages importing each other, resolved from the empty
    manager. *)
Lemma Import_two_cycle a srcDir b a' pkgA pkgB q fuel :
  build_Import a srcDir = inr pkgA → Imports pkgA = [b] → b ≠ "C"%string →
  build_Import b (Dir pkgA) = inr pkgB → Imports pkgB = [a'] →
  a' ≠ "C"%string → ImportPath pkgB ≠ ImportPath pkgA →
  build_Import a' (Dir pkgB) = inr q → ImportPath q = ImportPath pkgA →
  ∃ m' tr,
    Import build_Import (S (S (S fuel))) NewDependencyManager a srcDir
      = Returned (inr pkgA) m' tr ∧
    PackageCache.packages (packages m')
      = {[ImportPath pkgA := pkgA; ImportPath pkgB := pkgB]} ∧
    dependencies m'
      = {[ImportPath pkgA := {[ImportPath pkgB]};
          ImportPath pkgB := {[ImportPath pkgA]}]}.
Proof.
  intros Ha HimA Hb HB HimB Ha' Hne Hq HqA.
  rewrite (Import_miss _ _ _ _ pkgA Ha) by apply lookup_empty.
  rewrite HimA. cbn [Import_range].
  rewrite (proj2 (String.eqb_neq b "C") Hb).
  rewrite (Import_miss _ _ _ _ pkgB HB)
    by (unfold PackageCache.Get; simpl; by rewrite lookup_insert_ne, lookup_empty).
  rewrite HimB. cbn [Import_range].
  rewrite (proj2 (String.eqb_neq a' "C") Ha').
  rewrite (Import_hit _ _ _ _ q pkgA Hq).
  2:{ unfold PackageCache.Get. simpl.
      rewrite HqA, lookup_insert_ne by done. apply lookup_insert_eq. }
  do 2 eexists. split; [done|]. simpl. split.
  - rewrite insert_empty. apply insert_insert_ne. congruence.
  - rewrite lookup_insert_ne, !lookup_empty by done. simpl.
    rewrite !union_empty_r_L, insert_empty. done.
Qed.

(** *** The edge table at every observable point *)

Lemma consistent_new : consistent build_Import NewDependencyManager.
Proof.
  split; [|split].
  - intros k p. simpl. by rewrite lookup_empty.
  - intros P s. simpl. by rewrite lookup_empty.
  - intros P Q. unfold edges. simpl. rewrite lookup_empty. set_solver.
Qed.

Lemma consistent_put_package m pkg :
  PackageCache.Get (packages m) (ImportPath pkg) = None →
  consistent build_Import m → consistent build_Import (put_package m pkg).
Proof.
  intros Hmiss (Hwf & Hres & Hjust).
  destruct (extends_put_package m pkg Hmiss) as (Hsub & _ & _ & Hwf').
  pose proof (cached_mono _ _ Hsub) as Hdom.
  split; [auto|]. split.
  - intros P s Hs. destruct (Hres P s Hs) as (HP & Hne & Hs'). set_solver.
  - intros P Q HQ. destruct (Hjust P Q HQ) as (pkg' & Hpkg' & Him).
    exists pkg'. split; [|done]. by eapply lookup_weaken.
Qed.

Lemma consistent_add_dependency m pkg im q importedPkg :
  consistent build_Import m →
  PackageCache.packages (packages m) !! ImportPath pkg = Some pkg →
  im ∈ Imports pkg → im ≠ "C"%string →
  build_Import im (Dir pkg) = inr q → ImportPath q = ImportPath importedPkg →
  ImportPath importedPkg ∈ cached m →
  consistent build_Import
    (add_dependency m (ImportPath pkg) (ImportPath importedPkg)).
Proof.
  intros (Hwf & Hres & Hjust) Hpkg Him Hne Hq HqQ Hcached.
  split; [done|]. split.
  - intros P s. simpl. intros [[<- <-]|[HneP Hs]]%lookup_insert_Some.
    + split; [by apply elem_of_dom; eauto|]. split; [set_solver|].
      destruct (dependencies m !! ImportPath pkg) as [old|] eqn:E; simpl.
      * destruct (Hres _ _ E) as (_ & _ & Hold). set_solver.
      * set_solver.
    + by apply Hres.
  - intros P Q. rewrite edges_add_dependency.
    destruct (decide (ImportPath pkg = P)) as [<-|HneP]; [|by apply Hjust].
    intros [->%elem_of_singleton|HQ]%elem_of_union; [|by apply Hjust].
    exists pkg. split; [done|]. by exists im, q.
Qed.

Lemma range_steps_consistent pkg ims m trace r m' trace' :
  range_steps
    (λ m path srcDir r m' tr,
       keeps_consistent build_Import m path srcDir r m' tr ∧
       Import_post build_Import m path srcDir r m' tr)
    pkg ims m trace r m' trace' →
  consistent build_Import m → Forall (consistent build_Import) trace →
  PackageCache.packages (packages m) !! ImportPath pkg = Some pkg →
  (∀ im, im ∈ ims → im ∈ Imports pkg) →
  consistent build_Import m' ∧ Forall (consistent build_Import) trace'.
Proof.
  induction 1 as [m trace|rest m trace r m' trace' _ IH
                 |im rest m trace err m' tr Hne [Hkeep _]
                 |im rest m trace q m1 tr r m' trace' Hne [Hkeep Hpost] _ IH];
    intros Hm Htrace Hpkg Hims.
  - done.
  - apply IH; [done..|]. intros im Him. apply Hims. by right.
  - destruct (Hkeep Hm) as [Hm' Htr]. split; [done|]. by apply Forall_app.
  - destruct (Hkeep Hm) as [Hm1 Htr].
    destruct Hpost as [(Hsub & _) Hres].
    destruct (Hres q eq_refl (proj1 Hm)) as (Hq & q0 & Hq0 & Hq0q).
    assert (consistent build_Import
              (add_dependency m1 (ImportPath pkg) (ImportPath q))) as Hm2.
    { eapply (consistent_add_dependency m1 pkg im q0 q); [done| | |done..| ].
      - by eapply lookup_weaken.
      - apply Hims. by left.
      - apply elem_of_dom. eauto. }
    apply IH; [done| | |].
    + apply Forall_app. split; [done|]. apply Forall_app. split; [done|].
      by apply Forall_singleton.
    + simpl. by eapply lookup_weaken.
    + intros im' Him'. apply Hims. by right.
Qed.

Lemma Import_keeps_consistent fuel m path srcDir r m' tr :
  Import build_Import fuel m path srcDir = Returned r m' tr →
  keeps_consistent build_Import m path srcDir r m' tr.
Proof.
  apply Import_rule_post; clear.
  - by intros m path srcDir err Hb Hm.
  - by intros m path srcDir pkg c Hb Hc Hm.
  - intros m path srcDir pkg r m' tr Hb Hc Hsteps Hm.
    pose proof (consistent_put_package m pkg Hc Hm) as Hm1.
    eapply range_steps_consistent; [exact Hsteps|done| | |done].
    + by apply Forall_singleton.
    + simpl. apply lookup_insert_eq.
Qed.

(** *** The edge table after a successful call *)

Lemma import_recorded_mono X m m' pkg im :
  extends_but X m m' →
  import_recorded build_Import m pkg im → import_recorded build_Import m' pkg im.
Proof.
  intros (Hsub & _ & Hedges & _) (q & Hq & Hc & He).
  exists q. split; [done|]. split.
  - by apply (cached_mono m m').
  - by apply Hedges.
Qed.

Lemma imports_recorded_mono X m m' P :
  extends_but X m m' →
  imports_recorded build_Import m P → imports_recorded build_Import m' P.
Proof.
  intros Hext (pkg & Hpkg & Hims). exists pkg. split.
  - destruct Hext as (Hsub & _). by eapply lookup_weaken.
  - intros im Him Hne. eapply import_recorded_mono; eauto.
Qed.

Lemma range_steps_complete pkg ims m trace r m' trace' :
  range_steps
    (λ m path srcDir r m' tr,
       keeps_complete build_Import m path srcDir r m' tr ∧
       Import_post build_Import m path srcDir r m' tr)
    pkg ims m trace r m' trace' →
  ∀ stk p, r = inr p → cache_wf m → ImportPath pkg ∈ stk →
    complete_but build_Import stk m →
    PackageCache.packages (packages m) !! ImportPath pkg = Some pkg →
    complete_but build_Import stk m' ∧
    ∀ im, im ∈ ims → im ≠ "C"%string → import_recorded build_Import m' pkg im.
Proof.
  induction 1 as [m trace|rest m trace r m' trace' _ IH
                 |im rest m trace err m' tr Hne _
                 |im rest m trace q m1 tr r m' trace' Hne [Hkeep Hpost] Hrest IH];
    intros stk p Hr Hwf Hstk Hm Hpkg.
  - split; [done|]. by intros im ?%elem_of_nil.
  - destruct (IH stk p Hr Hwf Hstk Hm Hpkg) as [Hm' Hrec]. split; [done|].
    intros im [->|Him]%elem_of_cons; [done|auto].
  - done.
  - destruct Hpost as [Hext Hres].
    destruct (Hres q eq_refl Hwf) as (Hq & q0 & Hq0 & Hq0q).
    pose proof Hext as (Hsub & _ & _ & Hwf1). specialize (Hwf1 Hwf).
    set (m2 := add_dependency m1 (ImportPath pkg) (ImportPath q)) in *.
    assert (extends_but stk m1 m2) as Hext2.
    { by apply extends_add_dependency. }
    destruct (IH stk p Hr) as [Hm' Hrec]; [done..| | |].
    { intros P HP HPstk. apply (imports_recorded_mono stk m1); [done|].
      by apply (Hkeep stk q). }
    { by eapply lookup_weaken. }
    split; [done|].
    intros im' [->|Him]%elem_of_cons Hne'; [|auto].
    apply (import_recorded_mono {[ImportPath pkg]} m2).
    { eapply range_steps_post, range_steps_weaken; [|exact Hrest].
      by intros ?????? [_ ?]. }
    exists q0. split; [done|]. rewrite Hq0q. split.
    + apply elem_of_dom. simpl. eauto.
    + unfold m2. rewrite edges_add_dependency, decide_True by done. set_solver.
Qed.

Lemma Import_keeps_complete fuel m path srcDir r m' tr :
  Import build_Import fuel m path srcDir = Returned r m' tr →
  keeps_complete build_Import m path srcDir r m' tr.
Proof.
  apply Import_rule_post; clear.
  - by intros m path srcDir err Hb stk p.
  - by intros m path srcDir pkg c Hb Hc stk p.
  - intros m path srcDir pkg r m' tr Hb Hc Hsteps stk p Hr Hwf Hm.
    destruct (extends_put_package m pkg Hc) as (Hsub & _ & _ & Hwf1).
    destruct (range_steps_complete _ _ _ _ _ _ _ Hsteps
                (stk ∪ {[ImportPath pkg]}) p Hr) as [Hm' Hrec].
    + auto.
    + set_solver.
    + intros P HP HPstk. apply (imports_recorded_mono ∅ m).
      { by apply extends_put_package. }
      apply Hm; [|set_solver]. revert HP. unfold cached. simpl.
      rewrite dom_insert_L. set_solver.
    + simpl. apply lookup_insert_eq.
    + intros P HP HPstk.
      destruct (decide (P = ImportPath pkg)) as [->|Hne];
        [|apply Hm'; [done|set_solver]].
      exists pkg. split; [|done].
      assert (extends_but {[ImportPath pkg]} (put_package m pkg) m')
        as (Hsub' & _).
      { eapply range_steps_post, range_steps_weaken; [|exact Hsteps].
        by intros ?????? [_ ?]. }
      eapply lookup_weaken; [|exact Hsub']. simpl. apply lookup_insert_eq.
Qed.

Lemma complete_entry_after_all_imports m :
  complete_but build_Import ∅ m → entry_after_all_imports build_Import m.
Proof.
  intros Hm P pkg _ Hpkg im Him Hne.
  destruct (Hm P) as (pkg' & Hpkg' & Hims); [by apply elem_of_dom; eauto|done|].
  assert (pkg' = pkg) as -> by congruence.
  destruct (Hims im Him Hne) as (q & Hq & Hc & _). by exists q.
Qed.

(** *** Failing imports *)

Lemma Import_range_app (rec : t → string → string → Result error) pkg pre rest :
  ∀ m trace,
    Import_range rec pkg (pre ++ rest) m trace =
      match Import_range rec pkg pre m trace with
      | Returned (inr _) m1 tr1 => Import_range rec pkg rest m1 tr1
      | other => other
      end.
Proof.
  induction pre as [|im pre IH]; intros m trace; simpl; [done|].
  destruct (String.eqb im "C"); [by apply IH|].
  destruct (rec m im (Dir pkg)) as [|[err|q] m1 tr]; [done..|]. apply IH.
Qed.

Lemma Import_range_extends fuel pkg ims m trace r m' trace' :
  Import_range (Import build_Import fuel) pkg ims m trace = Returned r m' trace' →
  extends_but {[ImportPath pkg]} m m'.
Proof.
  intros Hrun. eapply range_steps_post, Import_range_steps; [|done].
  intros. by eapply Import_Import_post.
Qed.

Lemma Import_error_origin fuel m path srcDir err m' tr :
  Import build_Import fuel m path srcDir = Returned (inl err) m' tr →
  ∃ p d, build_Import p d = inl err.
Proof.
  enough (∀ r, Import build_Import fuel m path srcDir = Returned r m' tr →
               ∀ e, r = inl e → ∃ p d, build_Import p d = inl e) by eauto.
  intros r. revert fuel m path srcDir r m' tr.
  apply (Import_rule (λ _ _ _ r _ _,
           ∀ e, r = inl e → ∃ p d, build_Import p d = inl e)).
  - intros m path srcDir e Hb e' [= <-]. eauto.
  - by intros.
  - intros m path srcDir pkg r m' tr _ _ Hsteps.
    induction Hsteps as [| | |]; [done|done| |done]. auto.
Qed.

Lemma Import_fails_fast fuel m path srcDir pkg pre im post m1 tr1 err mf trf :
  build_Import path srcDir = inr pkg →
  PackageCache.Get (packages m) (ImportPath pkg) = None →
  Imports pkg = pre ++ im :: post →
  Import_range (Import build_Import fuel) pkg pre
    (put_package m pkg) [put_package m pkg] = Returned (inr pkg) m1 tr1 →
  im ≠ "C"%string →
  Import build_Import fuel m1 im (Dir pkg) = Returned (inl err) mf trf →
  Import build_Import (S fuel) m path srcDir = Returned (inl err) mf (tr1 ++ trf) ∧
  edges mf (ImportPath pkg) = edges m1 (ImportPath pkg).
Proof.
  intros Hb Hc Hims Hpre Hne Hfail. split.
  - rewrite (Import_miss _ _ _ _ pkg Hb Hc), Hims, Import_range_app, Hpre.
    cbn [Import_range]. by rewrite (proj2 (String.eqb_neq im "C") Hne), Hfail.
  - apply Import_range_extends in Hpre as (Hsub & _).
    apply Import_Import_post in Hfail as [(_ & Hframe & _) _].
    unfold edges. rewrite Hframe; [done| |set_solver].
    apply (cached_mono _ _ Hsub), elem_of_dom. simpl.
    rewrite lookup_insert_eq. eauto.
Qed.

(** *** The cgo pseudo-package *)

Lemma Import_range_filter (rec : t → string → string → Result error) pkg ims :
  ∀ m trace,
    Import_range rec pkg ims m trace =
      Import_range rec pkg (filter (λ im, im ≠ "C"%string) ims) m trace.
Proof.
  induction ims as [|im ims IH]; intros m trace; [done|].
  rewrite filter_cons. cbn [Import_range].
  destruct (String.eqb_spec im "C") as [->|Hne].
  - rewrite decide_False by (by intros []). apply IH.
  - rewrite decide_True by done. cbn [Import_range].
    rewrite (proj2 (String.eqb_neq im "C") Hne).
    destruct (rec m im (Dir pkg)) as [|[err|q] m1 tr]; [done..|]. apply IH.
Qed.

Lemma Import_only_cgo fuel m path srcDir pkg :
  build_Import path srcDir = inr pkg →
  PackageCache.Get (packages m) (ImportPath pkg) = None →
  Forall (λ im, im = "C"%string) (Imports pkg) →
  Import build_Import (S fuel) m path srcDir =
    Returned (inr pkg) (put_package m pkg) [put_package m pkg].
Proof.
  intros Hb Hc Hall. rewrite (Import_miss _ _ _ _ pkg Hb Hc).
  generalize (put_package m pkg) at 1 3 as m1.
  generalize [put_package m pkg] as trace.
  induction Hall as [|im ims -> _ IH]; intros trace m1; [done|]. apply IH.
Qed.

End ImportFacts.

(** [Import] never hands the cgo pseudo-package to the resolver: what the
    resolver would answer for it does not matter. *)
Lemma Import_ignores_resolver_at_cgo {error : Type}
    (build_Import build_Import' : string → string → error + Package) :
  (∀ path srcDir, path ≠ "C"%string →
     build_Import path srcDir = build_Import' path srcDir) →
  ∀ fuel m path srcDir, path ≠ "C"%string →
    Import build_Import fuel m path srcDir = Import build_Import' fuel m path srcDir.
Proof.
  intros Hagree. induction fuel as [|fuel IH]; [done|].
  intros m path srcDir Hpath. cbn [Import]. rewrite <- Hagree by done.
  destruct (build_Import path srcDir) as [err|pkg]; [done|].
  destruct (PackageCache.Get _ _); [done|].
  generalize (put_package m pkg) at 1 3 as m1.
  generalize [put_package m pkg] as trace.
  induction (Imports pkg) as [|im ims IHl]; intros trace m1; [done|].
  cbn [Import_range]. destruct (String.eqb_spec im "C") as [->|Hne]; [done|].
  rewrite <- IH by done.
  destruct (Import build_Import fuel m1 im (Dir pkg)) as [|[err|q] m2 tr];
    [done..|]. apply IHl.
Qed.

Section ImportMore.

Context {error : Type}.
Variable build_Import : string → string → error + Package.

Lemma Import_range_result fuel pkg ims m trace p m' trace' :
  Import_range (Import build_Import fuel) pkg ims m trace
    = Returned (inr p) m' trace' →
  p = pkg.
Proof.
  intros Hrun.
  apply (range_steps_result build_Import (λ _ _ _ _ _ _, True) pkg ims m trace
           (inr p) m' trace'); [|done].
  eapply Import_range_steps; [|exact Hrun]. done.
Qed.

(** What the second of two equal calls finds: the descriptor of the
    first, in the cache. *)
Lemma Import_leaves_cached fuel m path srcDir q r m' tr :
  build_Import path srcDir = inr q →
  Import build_Import fuel m path srcDir = Returned r m' tr →
  ∃ c, PackageCache.Get (packages m') (ImportPath q) = Some c ∧
       (∀ p, r = inr p → p = c) ∧
       (PackageCache.Get (packages m) (ImportPath q) = None → c = q).
Proof.
  intros Hq Hrun. destruct fuel as [|fuel]; [done|].
  cbn [Import] in Hrun. rewrite Hq in Hrun.
  destruct (PackageCache.Get (packages m) (ImportPath q)) as [c|] eqn:Hc.
  - injection Hrun as <- <- <-. exists c. split; [done|].
    split; [by intros p [= <-]|done].
  - exists q. split; [|split; [|done]].
    + apply Import_range_extends in Hrun as (Hsub & _).
      unfold PackageCache.Get. eapply lookup_weaken; [|exact Hsub].
      simpl. apply lookup_insert_eq.
    + intros p ->. by apply Import_range_result in Hrun.
Qed.

End ImportMore.

Lemma Import_success_edges {error : Type}
    (build_Import : string → string → error + Package)
    (fuel : nat) (m : DependencyManager.t) (path srcDir : string)
    (p : Package) (m' : DependencyManager.t) (tr : list DependencyManager.t) :
  consistent build_Import m → complete_but build_Import ∅ m →
  Import build_Import fuel m path srcDir = Returned (inr p) m' tr →
  ∀ P pkg, PackageCache.Get (packages m') P = Some pkg →
    ∀ Q, Q ∈ edges m' P ↔
         ∃ im q, im ∈ Imports pkg ∧ im ≠ "C"%string ∧
                 build_Import im (Dir pkg) = inr q ∧ ImportPath q = Q.
Proof.
  intros Hm Hcomplete Hrun P pkg Hpkg Q.
  destruct (Import_keeps_consistent build_Import _ _ _ _ _ _ _ Hrun Hm)
    as [(Hwf' & _ & Hjust) _].
  assert (complete_but build_Import ∅ m') as Hcomplete'.
  { eapply Import_keeps_complete; [done..|by destruct Hm|done]. }
  split.
  - intros HQ. destruct (Hjust P Q HQ) as (pkg' & Hpkg' & Him).
    unfold PackageCache.Get in Hpkg. by assert (pkg' = pkg) as -> by congruence.
  - intros (im & q & Him & Hne & Hq & <-).
    destruct (Hcomplete' P) as (pkg' & Hpkg' & Hims);
      [by apply elem_of_dom; eauto|done|].
    unfold PackageCache.Get in Hpkg. assert (pkg' = pkg) as -> by congruence.
    destruct (Hims im Him Hne) as (q' & Hq' & _ & Hedge).
    assert (q' = q) as -> by congruence.
    by rewrite (Hwf' P pkg Hpkg) in Hedge.
Qed.

Lemma complete_new {error : Type}
    (build_Import : string → string → error + Package) :
  complete_but build_Import ∅ NewDependencyManager.
Proof. intros P HP. unfold cached in HP. simpl in HP. set_solver. Qed.

(** In a source tree where nothing is missing every call succeeds. *)
Section Resolvable.

Context {error : Type}.
Variable build_Import : string → string → error + Package.
Variable U : gset string.
Hypothesis resolver_range :
  ∀ path srcDir pkg, build_Import path srcDir = inr pkg → ImportPath pkg ∈ U.
Variable good : string → string → Prop.
Hypothesis good_resolvable : resolvable build_Import good.

Lemma Import_succeeds fuel : ∀ m path srcDir,
  good path srcDir →
  (size (U ∖ cached m) < fuel)%nat →
  ∃ p m' tr, Import build_Import fuel m path srcDir = Returned (inr p) m' tr.
Proof.
  induction fuel as [|fuel IH]; [lia|]. intros m path srcDir Hgood Hfuel.
  destruct (good_resolvable path srcDir Hgood) as (pkg & Hb & Hims).
  cbn [Import]. rewrite Hb.
  destruct (PackageCache.Get _ _) as [c|] eqn:Ec; [by eauto|].
  assert (∀ m1, ImportPath pkg ∈ cached m1 → cached m ⊆ cached m1 →
            (size (U ∖ cached m1) < fuel)%nat) as Hm1.
  { intros m1 Hin Hsub.
    assert (U ∖ cached m1 ⊂ U ∖ cached m) as Hlt.
    { split; [set_solver|]. intros Hsup.
      assert (ImportPath pkg ∈ U ∖ cached m); [|set_solver].
      apply elem_of_difference. split; [by eapply resolver_range|].
      by apply not_elem_of_dom. }
    apply subset_size in Hlt. lia. }
  revert Hims. generalize (Imports pkg) as ims. intros ims Hims.
  assert (∀ m1 trace,
            ImportPath pkg ∈ cached m1 → cached m ⊆ cached m1 →
            ∃ p m' tr, Import_range (Import build_Import fuel) pkg ims m1 trace
                         = Returned (inr p) m' tr) as Hloop.
  { induction ims as [|im rest IHl]; intros m1 trace Hin Hsub; simpl;
      [by eauto|].
    destruct (String.eqb_spec im "C") as [->|Hne].
    { apply IHl; [|done..]. intros im' Him'. apply Hims. by right. }
    destruct (IH m1 im (Dir pkg)) as (q & m2 & tr & E).
    { apply Hims; [by left|done]. }
    { by apply Hm1. }
    rewrite E. apply Import_cached_mono in E. apply IHl.
    - intros im' Him'. apply Hims. by right.
    - set_solver.
    - set_solver. }
  apply Hloop.
  - apply elem_of_dom. simpl. rewrite lookup_insert_eq. eauto.
  - unfold cached. simpl. rewrite dom_insert_L. set_solver.
Qed.

End Resolvable.

(** C1: [Import] terminates on every import graph, cyclic ones included.
    When the identifiers the resolver can answer with lie in a finite set
    [U], a call returns as soon as the fuel exceeds the number of
    identifiers of [U] not yet cached, with a result that does not depend
    on the fuel. The reason is in the two equations that follow: a call
    whose identifier is cached returns the cached descriptor at once, in
    the same state and without recursing, and a call that misses stores
    the descriptor before walking the imports. For two packages that
    import each other the call returns with both edge sets recorded. *)
Theorem Import_terminates_on_cycles {error : Type}
    (build_Import : string → string → error + Package) (U : gset string) :
  (∀ path srcDir pkg, build_Import path srcDir = inr pkg → ImportPath pkg ∈ U) →
  (∀ m path srcDir, ∃ r m' tr, ∀ fuel,
     (size (U ∖ cached m) < fuel)%nat →
     Import build_Import fuel m path srcDir = Returned r m' tr) ∧
  (∀ fuel m path srcDir pkg cachedPkg,
     build_Import path srcDir = inr pkg →
     PackageCache.Get (packages m) (ImportPath pkg) = Some cachedPkg →
     Import build_Import (S fuel) m path srcDir = Returned (inr cachedPkg) m []) ∧
  (∀ fuel m path srcDir pkg,
     build_Import path srcDir = inr pkg →
     PackageCache.Get (packages m) (ImportPath pkg) = None →
     Import build_Import (S fuel) m path srcDir =
       Import_range (Import build_Import fuel) pkg (Imports pkg)
         (put_package m pkg) [put_package m pkg]) ∧
  (∀ a srcDir b a' pkgA pkgB q fuel,
     build_Import a srcDir = inr pkgA → Imports pkgA = [b] → b ≠ "C"%string →
     build_Import b (Dir pkgA) = inr pkgB → Imports pkgB = [a'] →
     a' ≠ "C"%string → ImportPath pkgB ≠ ImportPath pkgA →
     build_Import a' (Dir pkgB) = inr q → ImportPath q = ImportPath pkgA →
     (2 < fuel)%nat →
     ∃ m' tr,
       Import build_Import fuel NewDependencyManager a srcDir
         = Returned (inr pkgA) m' tr ∧
       PackageCache.packages (packages m')
         = {[ImportPath pkgA := pkgA; ImportPath pkgB := pkgB]} ∧
       dependencies m'
         = {[ImportPath pkgA := {[ImportPath pkgB]};
             ImportPath pkgB := {[ImportPath pkgA]}]}).
Proof.
  intros HU. split; [intros; by apply Import_total|].
  split; [intros; by eapply Import_hit|].
  split; [intros; by eapply Import_miss|].
  intros a srcDir b a' pkgA pkgB q fuel ????????? Hfuel.
  destruct fuel as [|[|[|fuel]]]; [lia..|].
  by eapply Import_two_cycle.
Qed.

Lemma Import_terminates_on_cycles_witness :
  ∃ m' tr,
    Import cycle_resolver 3 NewDependencyManager "A" "/" =
      Returned (inr (mkPackage "A" "/src/A" ["B"])) m' tr ∧
    PackageCache.packages (packages m') =
      {["A" := mkPackage "A" "/src/A" ["B"];
        "B" := mkPackage "B" "/src/B" ["A"]]} ∧
    dependencies m' = {["A" := {["B"]}; "B" := {["A"]}]}.
Proof.
  assert (∀ path srcDir pkg,
            cycle_resolver path srcDir = inr pkg →
            ImportPath pkg ∈ ({["A"; "B"]} : gset string)) as HU.
  { intros path srcDir pkg. unfold cycle_resolver.
    destruct (String.eqb path "A"); [intros [= <-]; set_solver|].
    destruct (String.eqb path "B"); [intros [= <-]; set_solver|done]. }
  apply (proj2 (proj2 (proj2
           (Import_terminates_on_cycles cycle_resolver {["A"; "B"]} HU)))
           "A" "/" "B" "A"
           (mkPackage "A" "/src/A" ["B"]) (mkPackage "B" "/src/B" ["A"])
           (mkPackage "A" "/src/A" ["B"]) 3%nat);
    (reflexivity || discriminate || lia).
Defined.

(** C2, as the specification states it, fails: while P's imports are
    walked the edge table already holds P's entry (the edge to X) and P's
    second import Y is not resolved yet; and when a later import cannot be
    resolved at all, the call returns its error and leaves the entry of
    the failing package behind. *)
Lemma Import_entry_before_all_imports :
  (∃ m' tr m,
     Import sample_resolver 2 NewDependencyManager "P" "/"
       = Returned (inr (mkPackage "P" "/src/P" ["X"; "Y"])) m' tr ∧
     tr !! 2%nat = Some m ∧
     dependencies m = {["P" := {["X"]}]} ∧
     cached m = {["P"; "X"]} ∧
     ¬ entry_after_all_imports sample_resolver m) ∧
  (∃ err m',  ∃ tr : list DependencyManager.t,
     Import sample_resolver 2 NewDependencyManager "Q" "/"
       = Returned (inl err) m' tr ∧
     dependencies m' = {["Q" := {["X"]}]} ∧
     cached m' = {["Q"; "X"]} ∧
     ¬ entry_after_all_imports sample_resolver m').
Proof.
  split.
  - do 3 eexists. split; [vm_compute; reflexivity|].
    split; [reflexivity|]. split; [by vm_compute|]. split; [by vm_compute|].
    intros Hclaim.
    destruct (Hclaim "P" (mkPackage "P" "/src/P" ["X"; "Y"])
                ltac:(by vm_compute) ltac:(by vm_compute) "Y")
      as (q & Hq & Hin); [set_solver|done|].
    injection Hq as <-. by vm_compute in Hin.
  - do 3 eexists. split; [vm_compute; reflexivity|].
    split; [by vm_compute|]. split; [by vm_compute|].
    intros Hclaim.
    destruct (Hclaim "Q" (mkPackage "Q" "/src/Q" ["C"; "X"; "missing"; "zlib"])
                ltac:(by vm_compute) ltac:(by vm_compute) "missing")
      as (q & Hq & Hin); [set_solver|done|].
    discriminate Hq.
Qed.

(** C2, amended: at every observable point of a call (and when it
    returns, with or without an error) each key P of the edge table is a
    cached package, its edge set is non-empty, and every identifier in it
    is a cached, hence resolved, package that one of the imports of P's
    descriptor resolves to. Imports that come later in P's list may be
    unresolved while the entry exists. When a call returns without an
    error, from a manager whose cached packages were complete, all the
    cached packages have every import resolved and recorded. The call does
    return, with this invariant, when the resolver has finitely many
    identifiers. *)
Theorem Import_edge_table_invariant {error : Type}
    (build_Import : string → string → error + Package)
    (m : DependencyManager.t) (path srcDir : string) :
  consistent build_Import m →
  (∀ fuel r m' tr,
     Import build_Import fuel m path srcDir = Returned r m' tr →
     Forall (consistent build_Import) tr ∧
     consistent build_Import m' ∧
     (∀ p, r = inr p → complete_but build_Import ∅ m →
        complete_but build_Import ∅ m' ∧
        entry_after_all_imports build_Import m')) ∧
  (∀ U : gset string,
     (∀ path srcDir pkg,
        build_Import path srcDir = inr pkg → ImportPath pkg ∈ U) →
     ∃ r m' tr,
       (∀ fuel, (size (U ∖ cached m) < fuel)%nat →
          Import build_Import fuel m path srcDir = Returned r m' tr) ∧
       Forall (consistent build_Import) tr ∧ consistent build_Import m').
Proof.
  intros Hm.
  assert (∀ fuel r m' tr,
            Import build_Import fuel m path srcDir = Returned r m' tr →
            Forall (consistent build_Import) tr ∧ consistent build_Import m')
    as Hinv.
  { intros fuel r m' tr Hrun.
    by destruct (Import_keeps_consistent build_Import _ _ _ _ _ _ _ Hrun Hm). }
  split.
  - intros fuel r m' tr Hrun. destruct (Hinv _ _ _ _ Hrun) as [Htr Hm'].
    split; [done|]. split; [done|]. intros p Hr Hcomplete.
    assert (complete_but build_Import ∅ m') as Hcomplete'.
    { eapply Import_keeps_complete; [done..|by destruct Hm|done]. }
    split; [done|]. by apply complete_entry_after_all_imports.
  - intros U HU.
    destruct (Import_total build_Import U HU m path srcDir) as (r & m' & tr & Hrun).
    exists r, m', tr. split; [done|].
    apply (Hinv (S (size (U ∖ cached m))) r). apply Hrun. lia.
Qed.

Lemma Import_edge_table_invariant_witness :
  ∃ m' tr,
    Import sample_resolver 2 NewDependencyManager "P" "/"
      = Returned (inr (mkPackage "P" "/src/P" ["X"; "Y"])) m' tr ∧
    Forall (consistent sample_resolver) tr ∧
    consistent sample_resolver m' ∧
    entry_after_all_imports sample_resolver m'.
Proof.
  do 2 eexists. split; [vm_compute; reflexivity|].
  destruct (proj1 (Import_edge_table_invariant sample_resolver
                     NewDependencyManager "P" "/"
                     (consistent_new sample_resolver)) 2%nat _ _ _ eq_refl)
    as (Htr & Hm' & Hok).
  split; [exact Htr|]. split; [exact Hm'|].
  refine (proj2 (Hok _ eq_refl _)).
  intros P HP. unfold cached in HP. simpl in HP. set_solver.
Defined.

(** C5: when the imports before [im] resolve and resolving [im] fails,
    the call returns that error and no descriptor, in the state the failing
    recursive call left and with no write after it: the outcome does not
    depend on the imports that follow, which are not attempted. The edge
    set of the failing package stays as it was when [im] was attempted, so
    it covers the earlier imports only. Every error a call returns is an
    error of the resolver, unchanged. *)
Theorem Import_fail_fast {error : Type}
    (build_Import : string → string → error + Package) :
  (∀ fuel m path srcDir pkg pre im post m1 tr1 err mf trf,
     build_Import path srcDir = inr pkg →
     PackageCache.Get (packages m) (ImportPath pkg) = None →
     Imports pkg = pre ++ im :: post →
     Import_range (Import build_Import fuel) pkg pre
       (put_package m pkg) [put_package m pkg] = Returned (inr pkg) m1 tr1 →
     im ≠ "C"%string →
     Import build_Import fuel m1 im (Dir pkg) = Returned (inl err) mf trf →
     Import build_Import (S fuel) m path srcDir
       = Returned (inl err) mf (tr1 ++ trf) ∧
     edges mf (ImportPath pkg) = edges m1 (ImportPath pkg)) ∧
  (∀ fuel m path srcDir err,
     build_Import path srcDir = inl err →
     Import build_Import (S fuel) m path srcDir = Returned (inl err) m []) ∧
  (∀ fuel m path srcDir err m' tr,
     Import build_Import fuel m path srcDir = Returned (inl err) m' tr →
     ∃ p d, build_Import p d = inl err).
Proof.
  split; [intros; by eapply Import_fails_fast|].
  split; [intros; by apply Import_resolver_error|].
  intros. by eapply Import_error_origin.
Qed.

Lemma Import_fail_fast_witness :
  ∃ mf tr,
    Import sample_resolver 2 NewDependencyManager "Q" "/"
      = Returned (inl "cannot find package missing"%string) mf tr ∧
    edges mf "Q" = {["X"]} ∧ cached mf = {["Q"; "X"]}.
Proof.
  pose (pkgQ := mkPackage "Q" "/src/Q" ["C"; "X"; "missing"; "zlib"]).
  destruct (proj1 (Import_fail_fast sample_resolver)
              1%nat NewDependencyManager "Q" "/" pkgQ
              ["C"; "X"]%string "missing"%string ["zlib"]%string
              _ _ "cannot find package missing"%string _ _
              eq_refl eq_refl eq_refl eq_refl ltac:(discriminate) eq_refl)
    as [Hrun _].
  do 2 eexists. split; [exact Hrun|]. split; by vm_compute.
Defined.

(** C6: the cgo pseudo-import "C" is skipped. Walking an import list is
    walking the list without its "C" entries, whatever the recursive call
    does: no call is made for them, no edge is added, nothing fails, and
    the other imports are handled as usual. A package that imports cgo
    alone resolves successfully with the edge table unchanged. No call on
    another path ever consults the resolver about "C": what the resolver
    would answer for it does not change any result. And in a source tree
    where nothing but "C" is missing, a call returns the descriptor,
    cached, and the edge set of every cached package, the one resolved
    included, holds exactly the identifiers its imports other than "C"
    resolve to: the sentinel costs no error and no edge, the other imports
    are resolved and recorded. *)
Theorem Import_skips_cgo {error : Type}
    (build_Import : string → string → error + Package) :
  (∀ (rec : DependencyManager.t → string → string → Result error)
      pkg ims m trace,
     Import_range rec pkg ims m trace =
       Import_range rec pkg (filter (λ im, im ≠ "C"%string) ims) m trace) ∧
  (∀ fuel m path srcDir pkg,
     build_Import path srcDir = inr pkg →
     PackageCache.Get (packages m) (ImportPath pkg) = None →
     Import build_Import (S fuel) m path srcDir =
       Import_range (Import build_Import fuel) pkg
         (filter (λ im, im ≠ "C"%string) (Imports pkg))
         (put_package m pkg) [put_package m pkg]) ∧
  (∀ fuel m path srcDir pkg,
     build_Import path srcDir = inr pkg →
     PackageCache.Get (packages m) (ImportPath pkg) = None →
     Forall (λ im, im = "C"%string) (Imports pkg) →
     Import build_Import (S fuel) m path srcDir =
       Returned (inr pkg) (put_package m pkg) [put_package m pkg]) ∧
  (∀ build_Import' : string → string → error + Package,
     (∀ path srcDir, path ≠ "C"%string →
        build_Import path srcDir = build_Import' path srcDir) →
     ∀ fuel m path srcDir, path ≠ "C"%string →
       Import build_Import fuel m path srcDir
         = Import build_Import' fuel m path srcDir) ∧
  (∀ (U : gset string) (good : string → string → Prop),
     (∀ path srcDir pkg,
        build_Import path srcDir = inr pkg → ImportPath pkg ∈ U) →
     resolvable build_Import good →
     ∀ fuel m path srcDir,
       good path srcDir →
       consistent build_Import m → complete_but build_Import ∅ m →
       (size (U ∖ cached m) < fuel)%nat →
       ∃ p m' tr,
         Import build_Import fuel m path srcDir = Returned (inr p) m' tr ∧
         PackageCache.Get (packages m') (ImportPath p) = Some p ∧
         (∃ q, build_Import path srcDir = inr q ∧
               ImportPath q = ImportPath p ∧
               (PackageCache.Get (packages m) (ImportPath q) = None → p = q)) ∧
         ∀ P pkg, PackageCache.Get (packages m') P = Some pkg →
           ∀ Q, Q ∈ edges m' P ↔
                ∃ im q, im ∈ Imports pkg ∧ im ≠ "C"%string ∧
                        build_Import im (Dir pkg) = inr q ∧ ImportPath q = Q).
Proof.
  split; [intros; apply Import_range_filter|].
  split.
  { intros fuel m path srcDir pkg Hb Hc.
    rewrite (Import_miss _ _ _ _ _ pkg Hb Hc). apply Import_range_filter. }
  split; [intros; by apply Import_only_cgo|].
  split; [intros; by apply Import_ignores_resolver_at_cgo|].
  intros U good HU Hgood fuel m path srcDir Hpath Hm Hcomplete Hfuel.
  destruct (Import_succeeds build_Import U HU good Hgood fuel m path srcDir
              Hpath Hfuel) as (p & m' & tr & Hrun).
  exists p, m', tr. split; [done|].
  destruct (Import_Import_post build_Import _ _ _ _ _ _ _ Hrun) as [_ Hres].
  destruct (Hres p eq_refl (proj1 Hm)) as (Hp & q & Hq & Hqp).
  split; [done|]. split.
  - exists q. split; [done|]. split; [done|]. intros Hmiss.
    destruct (Import_leaves_cached build_Import _ _ _ _ q _ _ _ Hq Hrun)
      as (c & _ & Hpc & Hc).
    by rewrite (Hpc p eq_refl), (Hc Hmiss).
  - by apply (Import_success_edges build_Import fuel m path srcDir p m' tr).
Qed.

Lemma Import_skips_cgo_witness :
  cgo_resolver "C" "/src/G" = inl "cannot find package C"%string ∧
  ∃ m' tr,
    Import cgo_resolver 3 NewDependencyManager "G" "/"
      = Returned (inr (mkPackage "G" "/src/G" ["C"; "X"])) m' tr ∧
    ("X" ∈ edges m' "G") ∧ ("C" ∉ edges m' "G").
Proof.
  split; [reflexivity|].
  destruct (proj2 (proj2 (proj2 (proj2 (Import_skips_cgo cgo_resolver))))
              {["G"; "X"]} (λ path _, path = "G"%string ∨ path = "X"%string))
    with (fuel := 3%nat) (m := NewDependencyManager)
         (path := "G"%string) (srcDir := "/"%string)
    as (p & m' & tr & Hrun & Hp & (q & Hq & _ & Hmiss) & Hedges).
  - intros path srcDir pkg. unfold cgo_resolver.
    repeat (destruct (String.eqb path _); [intros [= <-]; set_solver|]).
    done.
  - intros path srcDir [->| ->]; eexists; (split; [reflexivity|]);
      intros im Him Hne; simpl in Him; [|by apply elem_of_nil in Him].
    apply elem_of_cons in Him as [->|Him]; [done|].
    apply elem_of_cons in Him as [->|Him]; [by right|].
    by apply elem_of_nil in Him.
  - by left.
  - apply (consistent_new cgo_resolver).
  - apply (complete_new cgo_resolver).
  - vm_compute. lia.
  - injection Hq as <-. rewrite (Hmiss eq_refl) in Hrun, Hp.
    exists m', tr. split; [exact Hrun|].
    pose proof (Hedges "G"%string _ Hp) as Hexact. split.
    + apply Hexact. exists "X"%string, (mkPackage "X" "/src/X" []).
      split; [set_solver|]. by split.
    + intros (im & q & Him & Hne & Hq & HQ)%Hexact.
      simpl in Him. apply elem_of_cons in Him as [->|Him]; [done|].
      apply elem_of_cons in Him as [->|Him]; [|by apply elem_of_nil in Him].
      injection Hq as <-. discriminate HQ.
Defined.


(** ** Further properties

    *** The package cache *)

(** X1: a descriptor put in the cache is what a later [Get] of its
    identifier returns, whatever was stored under it before; the other
    identifiers are not affected; a second [Put] under the same
    identifier replaces the first; a new cache finds nothing. *)
Theorem PackageCache_Put_Get (c : PackageCache.t) (pkg : Package) :
  PackageCache.Get (PackageCache.Put c pkg) (ImportPath pkg) = Some pkg ∧
  (∀ importPath, importPath ≠ ImportPath pkg →
     PackageCache.Get (PackageCache.Put c pkg) importPath
       = PackageCache.Get c importPath) ∧
  (∀ pkg', ImportPath pkg' = ImportPath pkg →
     PackageCache.Put (PackageCache.Put c pkg) pkg' = PackageCache.Put c pkg') ∧
  (∀ importPath, PackageCache.Get NewPackageCache importPath = None).
Proof.
  unfold PackageCache.Get, PackageCache.Put. simpl. split; [|split; [|split]].
  - apply lookup_insert_eq.
  - intros k Hk. by rewrite lookup_insert_ne.
  - intros pkg' ->. by rewrite insert_insert_eq.
  - intros k. apply lookup_empty.
Qed.

(** *** The graph builder *)



Section ImportTable.

Context {error : Type}.
Variable build_Import : string → string → error + Package.

Lemma table_grows_refl m : table_grows m m.
Proof. intros k s Hs. by exists s. Qed.

Lemma table_grows_trans m1 m2 m3 :
  table_grows m1 m2 → table_grows m2 m3 → table_grows m1 m3.
Proof.
  intros H12 H23 k s Hs. destruct (H12 k s Hs) as (s2 & Hs2 & Hsub2).
  destruct (H23 k s2 Hs2) as (s3 & Hs3 & Hsub3). exists s3. set_solver.
Qed.

Lemma table_grows_add_dependency m from to :
  table_grows m (add_dependency m from to).
Proof.
  intros k s Hs. simpl. destruct (decide (from = k)) as [->|Hne].
  - rewrite lookup_insert_eq, Hs. simpl. eexists. split; [done|set_solver].
  - rewrite lookup_insert_ne by done. by exists s.
Qed.

Lemma range_steps_table_grows pkg ims m trace r m' trace' :
  range_steps (λ m _ _ (_ : error + Package) m' _, table_grows m m')
    pkg ims m trace r m' trace' →
  table_grows m m'.
Proof.
  induction 1 as [| | |im rest m trace q m1 tr r m' trace' _ Hcall _ IH];
    [apply table_grows_refl|done..|].
  eapply table_grows_trans; [exact Hcall|].
  eapply table_grows_trans; [apply table_grows_add_dependency|exact IH].
Qed.

Lemma Import_table_grows fuel m path srcDir r m' tr :
  Import build_Import fuel m path srcDir = Returned r m' tr →
  table_grows m m'.
Proof.
  apply (Import_rule build_Import (λ m _ _ _ m' _, table_grows m m')).
  - intros. apply table_grows_refl.
  - intros. apply table_grows_refl.
  - intros m0 p d pkg r0 m0' tr0 _ _ Hsteps.
    apply range_steps_table_grows in Hsteps. exact Hsteps.
Qed.

End ImportTable.

(** X2: a call of [Import] that returns, with or without an error, only
    adds: every cached descriptor stays cached, unchanged; no key leaves
    the edge table and no edge set loses a member. *)
Theorem Import_only_adds {error : Type}
    (build_Import : string → string → error + Package)
    (fuel : nat) (m : DependencyManager.t) (path srcDir : string)
    (r : error + Package) (m' : DependencyManager.t)
    (tr : list DependencyManager.t) :
  Import build_Import fuel m path srcDir = Returned r m' tr →
  (∀ k pkg, PackageCache.Get (packages m) k = Some pkg →
            PackageCache.Get (packages m') k = Some pkg) ∧
  (∀ k s, dependencies m !! k = Some s →
          ∃ s', dependencies m' !! k = Some s' ∧ s ⊆ s').
Proof.
  intros Hrun. split.
  - apply Import_Import_post in Hrun as [(Hsub & _) _].
    intros k pkg Hk. unfold PackageCache.Get. by eapply lookup_weaken.
  - by eapply Import_table_grows.
Qed.

Lemma Import_only_adds_witness :
  ∃ m' tr,
    Import sample_resolver 2 manager_with_P "Q" "/"
      = Returned (inl "cannot find package missing"%string) m' tr ∧
    PackageCache.Get (packages m') "P"
      = Some (mkPackage "P" "/src/P" ["X"; "Y"]) ∧
    ∃ s', dependencies m' !! "P" = Some s' ∧ {["X"; "Y"]} ⊆ s'.
Proof.
  do 2 eexists. split; [vm_compute; reflexivity|].
  destruct (Import_only_adds sample_resolver 2 manager_with_P
              "Q" "/" _ _ _ eq_refl)
    as [Hcache Htable].
  split; [by apply Hcache|]. by apply Htable.
Defined.

(** X3: a call of [Import] leaves alone the edge-table entry (present or
    absent) of every package that was cached before the call: it writes
    edges only for packages it stores itself. *)
Theorem Import_keeps_cached_entries {error : Type}
    (build_Import : string → string → error + Package)
    (fuel : nat) (m : DependencyManager.t) (path srcDir : string)
    (r : error + Package) (m' : DependencyManager.t)
    (tr : list DependencyManager.t) :
  Import build_Import fuel m path srcDir = Returned r m' tr →
  ∀ k, is_Some (PackageCache.Get (packages m) k) →
    dependencies m' !! k = dependencies m !! k.
Proof.
  intros Hrun k Hk.
  apply Import_Import_post in Hrun as [(_ & Hframe & _) _].
  apply Hframe; [by apply elem_of_dom|set_solver].
Qed.

Lemma Import_keeps_cached_entries_witness :
  ∃ m' tr,
    Import sample_resolver 2 manager_with_P "Q" "/"
      = Returned (inl "cannot find package missing"%string) m' tr ∧
    dependencies m' !! "P" = Some {["X"; "Y"]} ∧
    dependencies m' !! "X" = None.
Proof.
  do 2 eexists. split; [vm_compute; reflexivity|].
  split.
  - etrans;
      [apply (Import_keeps_cached_entries sample_resolver 2 manager_with_P
                "Q" "/" _ _ _ eq_refl "P")|by vm_compute].
    eexists. reflexivity.
  - etrans;
      [apply (Import_keeps_cached_entries sample_resolver 2 manager_with_P
                "Q" "/" _ _ _ eq_refl "X")|by vm_compute].
    eexists. reflexivity.
Defined.

(** X4: [Import] is idempotent: after a call that returned a descriptor,
    the same call returns the same descriptor at once, writes nothing and
    leaves the manager as it is. *)
Theorem Import_idempotent {error : Type}
    (build_Import : string → string → error + Package)
    (fuel : nat) (m : DependencyManager.t) (path srcDir : string)
    (p : Package) (m' : DependencyManager.t) (tr : list DependencyManager.t) :
  Import build_Import fuel m path srcDir = Returned (inr p) m' tr →
  ∀ fuel', Import build_Import (S fuel') m' path srcDir = Returned (inr p) m' [].
Proof.
  intros Hrun fuel'.
  destruct (build_Import path srcDir) as [err|q] eqn:Hq.
  { destruct fuel; [done|]. cbn [Import] in Hrun. by rewrite Hq in Hrun. }
  destruct (Import_leaves_cached build_Import _ _ _ _ q _ _ _ Hq Hrun)
    as (c & Hc & Hp & _).
  rewrite (Hp p eq_refl). by eapply Import_hit.
Qed.

Lemma Import_idempotent_witness :
  ∃ m',
    Import cycle_resolver 4 m' "A" "/"
      = Returned (inr (mkPackage "A" "/src/A" ["B"])) m' [] ∧
    dependencies m' = {["A" := {["B"]}; "B" := {["A"]}]}.
Proof.
  eexists. split.
  - apply (Import_idempotent cycle_resolver 3 NewDependencyManager "A" "/"
             (mkPackage "A" "/src/A" ["B"]) _ _ eq_refl 3%nat).
  - by vm_compute.
Defined.

(** X5: a failure is not repeated. When the resolver finds the package
    and the call fails all the same, because one of the imports does, the
    package stays in the cache: the same call made again returns the
    descriptor with no error, without looking at the imports again. *)
Theorem Import_failure_not_repeated {error : Type}
    (build_Import : string → string → error + Package)
    (fuel : nat) (m : DependencyManager.t) (path srcDir : string)
    (q : Package) (err : error) (m' : DependencyManager.t)
    (tr : list DependencyManager.t) :
  build_Import path srcDir = inr q →
  Import build_Import fuel m path srcDir = Returned (inl err) m' tr →
  ∀ fuel', Import build_Import (S fuel') m' path srcDir = Returned (inr q) m' [].
Proof.
  intros Hq Hrun fuel'.
  destruct (Import_leaves_cached build_Import _ _ _ _ q _ _ _ Hq Hrun)
    as (c & Hc & _ & Hmiss).
  assert (PackageCache.Get (packages m) (ImportPath q) = None) as Hnone.
  { destruct fuel as [|fuel]; [done|]. cbn [Import] in Hrun.
    rewrite Hq in Hrun. by destruct (PackageCache.Get _ _). }
  rewrite <- (Hmiss Hnone). by eapply Import_hit.
Qed.

Lemma Import_failure_not_repeated_witness :
  ∃ m' tr,
    Import sample_resolver 2 NewDependencyManager "Q" "/"
      = Returned (inl "cannot find package missing"%string) m' tr ∧
    Import sample_resolver 1 m' "Q" "/"
      = Returned (inr (mkPackage "Q" "/src/Q" ["C"; "X"; "missing"; "zlib"])) m' [].
Proof.
  do 2 eexists. split; [vm_compute; reflexivity|].
  apply (Import_failure_not_repeated sample_resolver 2 NewDependencyManager
           "Q" "/" _ "cannot find package missing"%string _ _ eq_refl eq_refl).
Defined.

(** X6: in a manager whose cache stores each descriptor under its own
    identifier, as a new one does, the descriptor a call returns is the
    one the cache holds under its identifier afterwards, and it has the
    identifier the resolver gives for the path; the cache keeps storing
    descriptors under their own identifiers. *)
Theorem Import_result_cached {error : Type}
    (build_Import : string → string → error + Package)
    (fuel : nat) (m : DependencyManager.t) (path srcDir : string)
    (p : Package) (m' : DependencyManager.t) (tr : list DependencyManager.t) :
  cache_wf m →
  Import build_Import fuel m path srcDir = Returned (inr p) m' tr →
  PackageCache.Get (packages m') (ImportPath p) = Some p ∧
  (∃ q, build_Import path srcDir = inr q ∧ ImportPath q = ImportPath p) ∧
  cache_wf m'.
Proof.
  intros Hwf Hrun.
  apply Import_Import_post in Hrun as [(_ & _ & _ & Hwf') Hres].
  destruct (Hres p eq_refl Hwf) as [Hp Hq]. by auto.
Qed.

Lemma Import_result_cached_witness :
  ∃ m' tr,
    Import cycle_resolver 3 NewDependencyManager "A" "/"
      = Returned (inr (mkPackage "A" "/src/A" ["B"])) m' tr ∧
    PackageCache.Get (packages m') "A" = Some (mkPackage "A" "/src/A" ["B"]) ∧
    cache_wf m'.
Proof.
  do 2 eexists. split; [vm_compute; reflexivity|].
  destruct (Import_result_cached cycle_resolver 3 NewDependencyManager "A" "/"
              _ _ _ (proj1 (consistent_new cycle_resolver)) eq_refl)
    as (Hp & _ & Hwf).
  split; [exact Hp|exact Hwf].
Defined.

(** X7: the edge table a successful call leaves is the import graph of
    the cached packages. Starting from a manager whose cached packages
    are complete (a new one, or one left by a successful call), after a
    call that returns a descriptor the edge set of every cached package
    holds exactly the identifiers its imports resolve to, from its own
    directory, the cgo marker apart. *)
Theorem Import_edges_exact {error : Type}
    (build_Import : string → string → error + Package)
    (fuel : nat) (m : DependencyManager.t) (path srcDir : string)
    (p : Package) (m' : DependencyManager.t) (tr : list DependencyManager.t) :
  consistent build_Import m → complete_but build_Import ∅ m →
  Import build_Import fuel m path srcDir = Returned (inr p) m' tr →
  ∀ P pkg, PackageCache.Get (packages m') P = Some pkg →
    ∀ Q, Q ∈ edges m' P ↔
         ∃ im q, im ∈ Imports pkg ∧ im ≠ "C"%string ∧
                 build_Import im (Dir pkg) = inr q ∧ ImportPath q = Q.
Proof. apply Import_success_edges. Qed.

Lemma Import_edges_exact_witness :
  ∃ m' tr,
    Import sample_resolver 2 NewDependencyManager "P" "/"
      = Returned (inr (mkPackage "P" "/src/P" ["X"; "Y"])) m' tr ∧
    ("Y" ∈ edges m' "P") ∧ ("P" ∉ edges m' "P").
Proof.
  do 2 eexists. split; [vm_compute; reflexivity|].
  pose proof (Import_edges_exact sample_resolver 2 NewDependencyManager
                "P" "/" _ _ _ (consistent_new sample_resolver)
                (complete_new sample_resolver)
                eq_refl "P" (mkPackage "P" "/src/P" ["X"; "Y"]) eq_refl)
    as Hexact.
  split.
  - apply Hexact. exists "Y"%string, (mkPackage "Y" "/src/Y" []).
    split; [set_solver|]. by split.
  - intros (im & q & Him & _ & Hq & HQ)%Hexact.
    simpl in Him. apply elem_of_cons in Him as [->|Him].
    { injection Hq as <-. discriminate HQ. }
    apply elem_of_cons in Him as [->|Him]; [|by apply elem_of_nil in Him].
    injection Hq as <-. discriminate HQ.
Defined.

(** *** The closure counter *)

Section CountMore.

Variable range_keys : string → gset string → list string.
Hypothesis range_keys_perm : ∀ p s, range_keys p s ≡ₚ elements s.

Lemma CoundDepsRecursive_visited m keep root fuel :
  (size (targets m ∪ {[root]}) < fuel)%nat →
  ∃ deps : gset string,
    CoundDepsRecursive range_keys fuel m root keep = Some (Z.of_nat (size deps)) ∧
    ∀ x, x ∈ deps ↔ kept_path m keep root x.
Proof.
  intros Hfuel.
  destruct (addDeps_terminates range_keys m keep range_keys_perm fuel ∅ root)
    as [deps Hrun].
  { by rewrite difference_empty_L. }
  exists deps. split; [by apply CoundDepsRecursive_size|].
  by eapply addDeps_reachable.
Qed.

End CountMore.

Lemma kept_path_filter_mono m (keep keep' : string → bool) x y :
  (∀ z, keep z = true → keep' z = true) →
  kept_path m keep x y → kept_path m keep' x y.
Proof.
  intros Hsub. induction 1 as [x Hk|x y z Hk Hy _ IH].
  - apply kept_path_root. auto.
  - apply kept_path_edge with y; auto.
Qed.

(** X8: with enough fuel the count is 0 exactly when the root fails the
    filter; otherwise it is at least 1, the root itself, and never more
    than the root and the identifiers that occur in the edge sets. *)
Theorem CoundDepsRecursive_bounds
    (range_keys : string → gset string → list string)
    (m : DependencyManager.t) (keep : string → bool) (root : string)
    (fuel : nat) :
  (∀ p s, range_keys p s ≡ₚ elements s) →
  (size (targets m ∪ {[root]}) < fuel)%nat →
  ∃ n, CoundDepsRecursive range_keys fuel m root keep = Some n ∧
       (n = 0 ↔ keep root = false) ∧
       (keep root = true → 1 ≤ n) ∧
       n ≤ 1 + Z.of_nat (size (targets m)).
Proof.
  intros Hperm Hfuel.
  destruct (CoundDepsRecursive_visited range_keys Hperm m keep root fuel Hfuel)
    as (deps & Hcount & Hreach).
  exists (Z.of_nat (size deps)). split; [done|].
  assert (keep root = true → (1 ≤ size deps)%nat) as Hroot.
  { intros Hk. assert (root ∈ deps) as Hin by (apply Hreach; by constructor).
    assert ({[root]} ⊆ deps) as Hsub%subseteq_size by set_solver.
    by rewrite size_singleton in Hsub. }
  assert (keep root = false → size deps = 0%nat) as Hnone.
  { intros Hk. apply size_empty_iff, elem_of_equiv_empty. intros x Hx%Hreach.
    apply kept_path_keep_l in Hx. congruence. }
  split; [|split].
  - split; [|intros ?%Hnone; lia].
    intros Hn. destruct (keep root); [|done]. specialize (Hroot eq_refl). lia.
  - intros ?%Hroot. lia.
  - assert (deps ⊆ targets m ∪ {[root]}) as Hsub%subseteq_size.
    { intros x [->|Hx]%Hreach%kept_path_targets; set_solver. }
    pose proof (size_union_le (targets m) {[root]}) as Hle.
    rewrite size_singleton in Hle. lia.
Qed.

Lemma CoundDepsRecursive_bounds_witness :
  ∃ n, CoundDepsRecursive (λ _ s, elements s) 5 (diamond "A" "B" "C" "D") "B"
         (λ _, true) = Some n ∧
       (n = 0 ↔ true = false) ∧ (true = true → 1 ≤ n) ∧
       n ≤ 1 + Z.of_nat (size (targets (diamond "A" "B" "C" "D"))).
Proof.
  apply (CoundDepsRecursive_bounds (λ _ s, elements s)
           (diamond "A" "B" "C" "D") (λ _, true) "B" 5).
  - intros p s. reflexivity.
  - vm_compute. lia.
Defined.

(** X9: a root that passes the filter and has no dependency that passes
    it (none at all, for instance) counts 1. *)
Theorem CoundDepsRecursive_leaf
    (range_keys : string → gset string → list string)
    (m : DependencyManager.t) (keep : string → bool) (root : string)
    (fuel : nat) :
  (∀ p s, range_keys p s ≡ₚ elements s) →
  keep root = true →
  (∀ im, im ∈ edges m root → keep im = false) →
  CoundDepsRecursive range_keys (S (S fuel)) m root keep = Some 1.
Proof.
  intros Hperm Hroot Hleaf. unfold CoundDepsRecursive. cbn [addDeps].
  rewrite Hroot. simpl negb. cbn iota.
  rewrite decide_False by set_solver.
  assert (∀ ims (d : gset string),
            (∀ im, im ∈ ims → keep im = false) →
            addDeps_range (addDeps range_keys (S fuel) m keep) ims d = Some d)
    as Hloop.
  { induction ims as [|im ims IH]; intros d Hims; [done|].
    cbn [addDeps_range].
    rewrite addDeps_pruned by (apply Hims; by left).
    apply IH. intros im' Him'. apply Hims. by right. }
  rewrite Hloop.
  - by rewrite union_empty_r_L, size_singleton.
  - intros im Him. apply Hleaf. by rewrite Hperm, elem_of_elements in Him.
Qed.

Lemma CoundDepsRecursive_leaf_witness :
  CoundDepsRecursive (λ _ s, elements s) 2 (diamond "A" "B" "C" "D") "D"
    (λ _, true) = Some 1.
Proof.
  apply (CoundDepsRecursive_leaf (λ _ s, elements s)
           (diamond "A" "B" "C" "D") (λ _, true) "D" 0).
  - intros p s. reflexivity.
  - reflexivity.
  - intros im Him. by vm_compute in Him.
Defined.

(** X10: a filter that lets more identifiers through does not count
    fewer: excluding packages never raises a count. *)
Theorem CoundDepsRecursive_filter_mono
    (range_keys range_keys' : string → gset string → list string)
    (m : DependencyManager.t) (keep keep' : string → bool) (root : string)
    (fuel fuel' : nat) :
  (∀ p s, range_keys p s ≡ₚ elements s) →
  (∀ p s, range_keys' p s ≡ₚ elements s) →
  (∀ x, keep x = true → keep' x = true) →
  (size (targets m ∪ {[root]}) < fuel)%nat →
  (size (targets m ∪ {[root]}) < fuel')%nat →
  ∃ n n', CoundDepsRecursive range_keys fuel m root keep = Some n ∧
          CoundDepsRecursive range_keys' fuel' m root keep' = Some n' ∧
          n ≤ n'.
Proof.
  intros Hperm Hperm' Hsub Hfuel Hfuel'.
  destruct (CoundDepsRecursive_visited range_keys Hperm m keep root fuel Hfuel)
    as (deps & Hcount & Hreach).
  destruct (CoundDepsRecursive_visited range_keys' Hperm' m keep' root fuel'
              Hfuel') as (deps' & Hcount' & Hreach').
  do 2 eexists. split; [done|]. split; [done|].
  assert (deps ⊆ deps') as Hle%subseteq_size; [|lia].
  intros x Hx%Hreach. apply Hreach'. by eapply kept_path_filter_mono.
Qed.

Lemma CoundDepsRecursive_filter_mono_witness :
  ∃ n n',
    CoundDepsRecursive (λ _ s, elements s) 5 (diamond "A" "B" "C" "D") "A"
      (λ p, negb (String.eqb p "B")) = Some n ∧
    CoundDepsRecursive (λ _ s, elements s) 5 (diamond "A" "B" "C" "D") "A"
      (λ _, true) = Some n' ∧
    n ≤ n'.
Proof.
  apply (CoundDepsRecursive_filter_mono (λ _ s, elements s) (λ _ s, elements s)
           (diamond "A" "B" "C" "D") (λ p, negb (String.eqb p "B")) (λ _, true)
           "A" 5 5).
  - intros p s. reflexivity.
  - intros p s. reflexivity.
  - done.
  - vm_compute. lia.
  - vm_compute. lia.
Defined.

(** X11: the count does not depend on the order in which Go walks its
    maps, nor on how deep the recursion is allowed to go once it is deep
    enough: two runs over the same edge table with the same filter agree. *)
Theorem CoundDepsRecursive_order_independent
    (range_keys range_keys' : string → gset string → list string)
    (m : DependencyManager.t) (keep : string → bool) (root : string)
    (fuel fuel' : nat) :
  (∀ p s, range_keys p s ≡ₚ elements s) →
  (∀ p s, range_keys' p s ≡ₚ elements s) →
  (size (targets m ∪ {[root]}) < fuel)%nat →
  (size (targets m ∪ {[root]}) < fuel')%nat →
  addDeps range_keys fuel m keep ∅ root
    = addDeps range_keys' fuel' m keep ∅ root ∧
  CoundDepsRecursive range_keys fuel m root keep
    = CoundDepsRecursive range_keys' fuel' m root keep ∧
  is_Some (CoundDepsRecursive range_keys fuel m root keep).
Proof.
  intros Hperm Hperm' Hfuel Hfuel'.
  destruct (addDeps_terminates range_keys m keep Hperm fuel ∅ root)
    as [deps Hrun]; [by rewrite difference_empty_L|].
  destruct (addDeps_terminates range_keys' m keep Hperm' fuel' ∅ root)
    as [deps' Hrun']; [by rewrite difference_empty_L|].
  assert (deps = deps') as <-.
  { apply set_eq. intros x.
    rewrite (addDeps_reachable range_keys m keep Hperm fuel root deps Hrun).
    by rewrite (addDeps_reachable range_keys' m keep Hperm' fuel' root deps' Hrun'). }
  split; [by rewrite Hrun, Hrun'|].
  unfold CoundDepsRecursive. rewrite Hrun, Hrun'. by eauto.
Qed.

Lemma CoundDepsRecursive_order_independent_witness :
  CoundDepsRecursive (λ _ s, elements s) 5 (diamond "A" "B" "C" "D") "A"
    (λ _, true)
  = CoundDepsRecursive (λ _ s, reverse (elements s)) 7
      (diamond "A" "B" "C" "D") "A" (λ _, true).
Proof.
  apply (CoundDepsRecursive_order_independent
           (λ _ s, elements s) (λ _ s, reverse (elements s))
           (diamond "A" "B" "C" "D") (λ _, true) "A" 5 7).
  - intros p s. reflexivity.
  - intros p s. apply reverse_Permutation.
  - vm_compute. lia.
  - vm_compute. lia.
Defined.

(** X12: a dependency never counts more than the package that depends on
    it: when [x] passes the filter and [y] is in its edge set, the count
    of [y] is at most the count of [x]. *)
Theorem CoundDepsRecursive_edge_mono
    (range_keys range_keys' : string → gset string → list string)
    (m : DependencyManager.t) (keep : string → bool) (x y : string)
    (fuel : nat) :
  (∀ p s, range_keys p s ≡ₚ elements s) →
  (∀ p s, range_keys' p s ≡ₚ elements s) →
  keep x = true → y ∈ edges m x →
  (S (size (targets m)) < fuel)%nat →
  ∃ nx ny, CoundDepsRecursive range_keys fuel m x keep = Some nx ∧
           CoundDepsRecursive range_keys' fuel m y keep = Some ny ∧
           ny ≤ nx.
Proof.
  intros Hperm Hperm' Hx Hy Hfuel.
  assert (∀ r, size (targets m ∪ {[r]}) < fuel)%nat as Hfuel'.
  { intros r. pose proof (size_union_le (targets m) {[r]}) as Hle.
    rewrite size_singleton in Hle. lia. }
  destruct (CoundDepsRecursive_visited range_keys Hperm m keep x fuel (Hfuel' x))
    as (dx & Hcx & Hrx).
  destruct (CoundDepsRecursive_visited range_keys' Hperm' m keep y fuel (Hfuel' y))
    as (dy & Hcy & Hry).
  do 2 eexists. split; [done|]. split; [done|].
  assert (dy ⊆ dx) as Hle%subseteq_size; [|lia].
  intros z Hz%Hry. apply Hrx. by apply kept_path_edge with y.
Qed.

Lemma CoundDepsRecursive_edge_mono_witness :
  ∃ nx ny,
    CoundDepsRecursive (λ _ s, elements s) 5 (diamond "A" "B" "C" "D") "A"
      (λ _, true) = Some nx ∧
    CoundDepsRecursive (λ _ s, elements s) 5 (diamond "A" "B" "C" "D") "B"
      (λ _, true) = Some ny ∧
    ny ≤ nx.
Proof.
  apply (CoundDepsRecursive_edge_mono (λ _ s, elements s) (λ _ s, elements s)
           (diamond "A" "B" "C" "D") (λ _, true) "A" "B" 5).
  - intros p s. reflexivity.
  - intros p s. reflexivity.
  - reflexivity.
  - by vm_compute.
  - vm_compute. lia.
Defined.

(** *** The classification of import paths *)

Lemma first_segment_app_slash p q :
  first_segment (p +:+ String "/"%char q) = first_segment p.
Proof.
  induction p as [|c p IH]; simpl; [done|].
  destruct (Ascii.eqb c "/"); [done|]. by rewrite IH.
Qed.

Lemma first_segment_idemp s : first_segment (first_segment s) = first_segment s.
Proof.
  induction s as [|c s IH]; simpl; [done|].
  destruct (Ascii.eqb c "/") eqn:E; simpl; [done|]. by rewrite E, IH.
Qed.

(** X13: a package and everything below it are classified alike: for
    all [p] and [q], the path [p/q] is standard exactly when [p] is; and
    a path is classified as its first segment is. *)
Theorem IsStandardPackage_subpackage (p q : string) :
  IsStandardPackage (p +:+ "/" +:+ q) = IsStandardPackage p ∧
  IsStandardPackage (first_segment p) = IsStandardPackage p.
Proof.
  rewrite !IsStandardPackage_by_spec. unfold standard_by_spec.
  change ("/" +:+ q) with (String "/"%char q).
  by rewrite first_segment_app_slash, first_segment_idemp.
Qed.

(** *** [Get] *)

Section GetFacts.

Context {error : Type}.
Variable build_Import : string → string → error + Package.
Variable build_FindOnly : string → string → error + Package.
Variable range_keys : string → gset string → list string.

Lemma Get_returns_deps fuel m path srcDir pkg deps m' tr :
  Get build_Import build_FindOnly range_keys fuel m path srcDir
    = GetReturned (inr (pkg, deps)) m' tr →
  deps = Get_deps range_keys m' pkg.
Proof.
  unfold Get. destruct (build_FindOnly path srcDir) as [err|f]; [done|].
  destruct (PackageCache.Get _ _) as [c|]; [by intros [= <- <- <- <-]|].
  destruct (Import _ _ _ _ _) as [|[err|p] m1 tr1]; [done..|].
  by intros [= <- <- <- <-].
Qed.

(** From a new manager [Get] resolves in full. *)
Lemma Get_new fuel path srcDir r m' tr :
  Get build_Import build_FindOnly range_keys fuel NewDependencyManager
    path srcDir = GetReturned r m' tr →
  (∃ err, build_FindOnly path srcDir = inl err ∧ r = inl err ∧
          m' = NewDependencyManager ∧ tr = []) ∨
  (∃ f r0, build_FindOnly path srcDir = inr f ∧
     Import build_Import fuel NewDependencyManager path srcDir
       = Returned r0 m' tr ∧
     match r0 with
     | inl err => r = inl err
     | inr pkg => r = inr (pkg, Get_deps range_keys m' pkg)
     end).
Proof.
  unfold Get. destruct (build_FindOnly path srcDir) as [err|f].
  { intros [= <- <- <-]. left. by exists err. }
  unfold PackageCache.Get at 1. simpl. rewrite lookup_empty.
  destruct (Import _ _ _ _ _) as [|[err|p] m1 tr1]; [done|..];
    intros [= <- <- <-]; right.
  - by exists f, (inl err).
  - by exists f, (inr p).
Qed.

Hypothesis range_keys_perm : ∀ p s, range_keys p s ≡ₚ elements s.

Lemma Get_deps_perm m pkg :
  Get_deps range_keys m pkg ≡ₚ elements (edges m (ImportPath pkg)).
Proof.
  unfold Get_deps. case_decide as Hsize; [apply range_keys_perm|].
  assert (edges m (ImportPath pkg) = ∅) as ->.
  { apply leibniz_equiv, size_empty_iff. lia. }
  by rewrite elements_empty.
Qed.

End GetFacts.

(** X14: what [Get] returns, when it returns a descriptor, is the list of
    the identifiers recorded in the edge table for that descriptor, each
    once and nothing else, in the manager the call leaves; the list is
    empty when the table has no entry. *)
Theorem Get_lists_recorded_edges {error : Type}
    (build_Import build_FindOnly : string → string → error + Package)
    (range_keys : string → gset string → list string)
    (fuel : nat) (m : DependencyManager.t) (path srcDir : string)
    (pkg : Package) (deps : list string) (m' : DependencyManager.t)
    (tr : list DependencyManager.t) :
  (∀ p s, range_keys p s ≡ₚ elements s) →
  Get build_Import build_FindOnly range_keys fuel m path srcDir
    = GetReturned (inr (pkg, deps)) m' tr →
  NoDup deps ∧
  (∀ Q, Q ∈ deps ↔ Q ∈ edges m' (ImportPath pkg)) ∧
  (dependencies m' !! ImportPath pkg = None → deps = []).
Proof.
  intros Hperm Hrun. apply Get_returns_deps in Hrun as ->.
  pose proof (Get_deps_perm range_keys Hperm m' pkg) as Hdeps.
  split; [|split].
  - rewrite Hdeps. apply NoDup_elements.
  - intros Q. by rewrite Hdeps, elem_of_elements.
  - intros Hnone. apply Permutation_nil_r. rewrite Hdeps.
    unfold edges. rewrite Hnone. simpl. by rewrite elements_empty.
Qed.

Lemma Get_lists_recorded_edges_witness :
  ∃ deps m' tr,
    Get sample_resolver sample_resolver (λ _ s, elements s) 2
      NewDependencyManager "P" "/"
      = GetReturned (inr (mkPackage "P" "/src/P" ["X"; "Y"], deps)) m' tr ∧
    NoDup deps ∧ ("X" ∈ deps) ∧ ("Y" ∈ deps).
Proof.
  do 3 eexists. split; [vm_compute; reflexivity|].
  destruct (Get_lists_recorded_edges sample_resolver sample_resolver
              (λ _ s, elements s) 2 NewDependencyManager "P" "/" _ _ _ _
              (λ _ _, reflexivity _) eq_refl) as (Hnodup & Hmem & _).
  split; [exact Hnodup|]. split; apply Hmem; by vm_compute.
Defined.

(** X15: [Get] answers a repeated question from the cache. When the two
    modes of the resolver give a path the same identifier and the cache
    stores descriptors under their own identifiers, a call of [Get] that
    returned a descriptor and its dependencies is followed by a call that
    returns the same descriptor with no resolution of the imports (no fuel
    is needed) and no write. Go may walk the edge set in another order the
    second time: the second list is a permutation of the first. *)
Theorem Get_idempotent {error : Type}
    (build_Import build_FindOnly : string → string → error + Package)
    (range_keys range_keys' : string → gset string → list string)
    (fuel : nat) (m : DependencyManager.t) (path srcDir : string)
    (pkg : Package) (deps : list string) (m' : DependencyManager.t)
    (tr : list DependencyManager.t) :
  (∀ p s, range_keys p s ≡ₚ elements s) →
  (∀ p s, range_keys' p s ≡ₚ elements s) →
  (∀ f q, build_FindOnly path srcDir = inr f →
          build_Import path srcDir = inr q → ImportPath f = ImportPath q) →
  cache_wf m →
  Get build_Import build_FindOnly range_keys fuel m path srcDir
    = GetReturned (inr (pkg, deps)) m' tr →
  ∃ deps',
    Get build_Import build_FindOnly range_keys' 0 m' path srcDir
      = GetReturned (inr (pkg, deps')) m' [] ∧
    deps' ≡ₚ deps.
Proof.
  intros Hperm Hperm' Hagree Hwf Hrun.
  exists (Get_deps range_keys' m' pkg). split.
  - revert Hrun. unfold Get.
    destruct (build_FindOnly path srcDir) as [err|f] eqn:Hf; [done|].
    destruct (PackageCache.Get (packages m) (ImportPath f)) as [c|] eqn:Hc.
    { intros [= <- <- <- <-]. by rewrite Hc. }
    destruct (Import build_Import fuel m path srcDir)
      as [|[err|p] m1 tr1] eqn:Hrun; [done..|].
    intros [= <- <- <- <-].
    destruct (Import_Import_post build_Import _ _ _ _ _ _ _ Hrun) as [_ Hres].
    destruct (Hres p eq_refl Hwf) as (Hp & q & Hq & Hqp).
    rewrite (Hagree f q eq_refl Hq), Hqp.
    unfold PackageCache.Get. by rewrite Hp.
  - apply Get_returns_deps in Hrun as ->.
    by rewrite !Get_deps_perm.
Qed.

Lemma Get_idempotent_witness :
  ∃ deps deps' m' tr,
    Get sample_resolver sample_resolver (λ _ s, elements s) 2
      NewDependencyManager "P" "/"
      = GetReturned (inr (mkPackage "P" "/src/P" ["X"; "Y"], deps)) m' tr ∧
    Get sample_resolver sample_resolver (λ _ s, reverse (elements s)) 0 m'
      "P" "/"
      = GetReturned (inr (mkPackage "P" "/src/P" ["X"; "Y"], deps')) m' [] ∧
    deps' ≡ₚ deps ∧
    dependencies m' = {["P" := {["X"; "Y"]}]}.
Proof.
  assert (∃ deps m' tr,
            Get sample_resolver sample_resolver (λ _ s, elements s) 2
              NewDependencyManager "P" "/"
            = GetReturned (inr (mkPackage "P" "/src/P" ["X"; "Y"], deps))
                m' tr ∧
            dependencies m' = {["P"%string := {["X"%string; "Y"%string]}]})
    as (deps & m' & tr & Hrun & Hdependencies).
  { do 3 eexists. split; vm_compute; reflexivity. }
  assert (∀ f q, sample_resolver "P" "/" = inr f →
                 sample_resolver "P" "/" = inr q →
                 ImportPath f = ImportPath q) as Hagree.
  { intros f q [= <-] [= <-]. reflexivity. }
  destruct (Get_idempotent sample_resolver sample_resolver
              (λ _ s, elements s) (λ _ s, reverse (elements s))
              2 NewDependencyManager "P" "/" _ _ _ _
              (λ _ _, reflexivity _)
              (λ _ s, reverse_Permutation (elements s))
              Hagree (proj1 (consistent_new sample_resolver)) Hrun)
    as (deps' & Hget & Hdeps).
  exists deps, deps', m', tr. split; [exact Hrun|].
  split; [exact Hget|]. split; [exact Hdeps|]. exact Hdependencies.
Defined.

(** X16: on a new manager, [Get] returns the descriptor the resolver
    gives for the path and the list of its direct dependencies: each
    identifier that one of its imports, the cgo marker apart, resolves to
    from the package's directory, once, and nothing else. *)
Theorem Get_new_direct_dependencies {error : Type}
    (build_Import build_FindOnly : string → string → error + Package)
    (range_keys : string → gset string → list string)
    (fuel : nat) (path srcDir : string)
    (pkg : Package) (deps : list string) (m' : DependencyManager.t)
    (tr : list DependencyManager.t) :
  (∀ p s, range_keys p s ≡ₚ elements s) →
  Get build_Import build_FindOnly range_keys fuel NewDependencyManager
    path srcDir = GetReturned (inr (pkg, deps)) m' tr →
  build_Import path srcDir = inr pkg ∧
  NoDup deps ∧
  ∀ Q, Q ∈ deps ↔
       ∃ im q, im ∈ Imports pkg ∧ im ≠ "C"%string ∧
               build_Import im (Dir pkg) = inr q ∧ ImportPath q = Q.
Proof.
  intros Hperm Hrun.
  destruct (Get_new _ _ _ _ _ _ _ _ _ Hrun)
    as [(err & _ & [=] & _)|(f & r0 & Hf & Himport & Hr)].
  destruct r0 as [err|p]; [done|]. injection Hr as -> ->.
  pose proof (consistent_new build_Import) as Hnew.
  destruct (Import_Import_post build_Import _ _ _ _ _ _ _ Himport) as [_ Hres].
  destruct (Hres p eq_refl (proj1 Hnew)) as (Hp & q & Hq & Hqp).
  destruct (Import_leaves_cached build_Import _ _ _ _ q _ _ _ Hq Himport)
    as (c & _ & Hpc & Hmiss).
  assert (p = q) as ->.
  { rewrite (Hpc p eq_refl). apply Hmiss. apply lookup_empty. }
  pose proof (Get_deps_perm range_keys Hperm m' q) as Hdeps.
  split; [done|]. split; [rewrite Hdeps; apply NoDup_elements|].
  intros Q. rewrite Hdeps, elem_of_elements.
  by apply (Import_success_edges build_Import fuel NewDependencyManager
              path srcDir q m' tr Hnew (complete_new build_Import) Himport).
Qed.

Lemma Get_new_direct_dependencies_witness :
  ∃ deps m' tr,
    Get sample_resolver sample_resolver (λ _ s, elements s) 2
      NewDependencyManager "P" "/"
      = GetReturned (inr (mkPackage "P" "/src/P" ["X"; "Y"], deps)) m' tr ∧
    NoDup deps ∧ ("Y" ∈ deps).
Proof.
  do 3 eexists. split; [vm_compute; reflexivity|].
  destruct (Get_new_direct_dependencies sample_resolver sample_resolver
              (λ _ s, elements s) 2 "P" "/" _ _ _ _
              (λ _ _, reflexivity _) eq_refl) as (_ & Hnodup & Hmem).
  split; [exact Hnodup|]. apply Hmem.
  exists "Y"%string, (mkPackage "Y" "/src/Y" []).
  split; [set_solver|]. by split.
Defined.

(** X17: an error [Get] returns is the error of the locate-only
    resolution of the path, in which case nothing was written, or an
    error the full resolver produced for some import on the way. *)
Theorem Get_error_origin {error : Type}
    (build_Import build_FindOnly : string → string → error + Package)
    (range_keys : string → gset string → list string)
    (fuel : nat) (m : DependencyManager.t) (path srcDir : string)
    (err : error) (m' : DependencyManager.t) (tr : list DependencyManager.t) :
  Get build_Import build_FindOnly range_keys fuel m path srcDir
    = GetReturned (inl err) m' tr →
  (build_FindOnly path srcDir = inl err ∧ m' = m ∧ tr = []) ∨
  ((∃ f, build_FindOnly path srcDir = inr f) ∧
   ∃ p d, build_Import p d = inl err).
Proof.
  unfold Get. destruct (build_FindOnly path srcDir) as [e|f] eqn:Hf.
  { intros [= <- <- <-]. by left. }
  destruct (PackageCache.Get _ _) as [c|]; [done|].
  destruct (Import build_Import fuel m path srcDir) as [|[e|p] m1 tr1] eqn:Hrun;
    [done| |done].
  intros [= <- <- <-]. right. split; [by eauto|].
  by eapply Import_error_origin.
Qed.

Lemma Get_error_origin_witness :
  ∃ p d, sample_resolver p d = inl "cannot find package missing"%string.
Proof.
  destruct (Get_error_origin sample_resolver sample_resolver
              (λ _ s, elements s) 2 NewDependencyManager "Q" "/"
              "cannot find package missing"%string _ _ eq_refl)
    as [[Hfind _]|[_ Horigin]].
  - discriminate Hfind.
  - exact Horigin.
Defined.

(** X18: a failed [Get] is not repeated either. When both modes of the
    resolver find the package, under the same identifier, and [Get] fails
    because an import cannot be resolved, the next [Get] of the same path
    reports no error: it returns the descriptor from the cache with the
    dependencies recorded before the failure. *)
Theorem Get_after_failure {error : Type}
    (build_Import build_FindOnly : string → string → error + Package)
    (range_keys : string → gset string → list string)
    (fuel : nat) (m : DependencyManager.t) (path srcDir : string)
    (f q : Package) (err : error) (m' : DependencyManager.t)
    (tr : list DependencyManager.t) :
  build_FindOnly path srcDir = inr f →
  build_Import path srcDir = inr q →
  ImportPath f = ImportPath q →
  Get build_Import build_FindOnly range_keys fuel m path srcDir
    = GetReturned (inl err) m' tr →
  Get build_Import build_FindOnly range_keys 0 m' path srcDir
    = GetReturned (inr (q, Get_deps range_keys m' q)) m' [].
Proof.
  intros Hf Hq Hfq. unfold Get. rewrite Hf.
  destruct (PackageCache.Get (packages m) (ImportPath f)) as [c|] eqn:Hc; [done|].
  destruct (Import build_Import fuel m path srcDir) as [|[e|p] m1 tr1] eqn:Hrun;
    [done| |done].
  intros [= <- <- <-].
  destruct (Import_leaves_cached build_Import _ _ _ _ q _ _ _ Hq Hrun)
    as (c & Hcached & _ & Hmiss).
  rewrite Hfq in Hc |- *. by rewrite Hcached, (Hmiss Hc).
Qed.

Lemma Get_after_failure_witness :
  ∃ m' tr,
    Get sample_resolver sample_resolver (λ _ s, elements s) 2
      NewDependencyManager "Q" "/"
      = GetReturned (inl "cannot find package missing"%string) m' tr ∧
    Get sample_resolver sample_resolver (λ _ s, elements s) 0 m' "Q" "/"
      = GetReturned
          (inr (mkPackage "Q" "/src/Q" ["C"; "X"; "missing"; "zlib"], ["X"]%string))
          m' [].
Proof.
  do 2 eexists. split; [vm_compute; reflexivity|].
  etrans;
    [apply (Get_after_failure sample_resolver sample_resolver
              (λ _ s, elements s) 2 NewDependencyManager "Q" "/"
              _ _ "cannot find package missing"%string _ _
              eq_refl eq_refl eq_refl eq_refl)|].
  by vm_compute.
Defined.

(** *** [main] *)

Lemma string_compare_refl s : String.compare s s = Eq.
Proof.
  induction s as [|a s IH]; simpl; [done|].
  unfold Ascii.compare. by rewrite N.compare_refl.
Qed.

Lemma string_compare_cons a b s t :
  String.compare (String a s) (String b t) =
    match N.compare (N_of_ascii a) (N_of_ascii b) with
    | Eq => String.compare s t
    | c => c
    end.
Proof. simpl. unfold Ascii.compare. by destruct (N.compare _ _). Qed.

Lemma string_le_trans s1 : ∀ s2 s3,
  string_le s1 s2 → string_le s2 s3 → string_le s1 s3.
Proof.
  unfold string_le, String.leb.
  induction s1 as [|a s1 IH]; intros [|b s2] [|c s3]; try done.
  rewrite !string_compare_cons.
  destruct (N.compare_spec (N_of_ascii a) (N_of_ascii b)) as [Hab|Hab|Hab];
    destruct (N.compare_spec (N_of_ascii b) (N_of_ascii c)) as [Hbc|Hbc|Hbc];
    destruct (N.compare_spec (N_of_ascii a) (N_of_ascii c)) as [Hac|Hac|Hac];
    try done; try lia.
  apply IH.
Qed.

#[global] Instance string_le_Transitive : Transitive string_le.
Proof. intros s1 s2 s3. apply string_le_trans. Qed.

#[global] Instance string_le_Total : Total string_le.
Proof. intros s1 s2. apply String.leb_total. Qed.

#[global] Instance string_le_AntiSymm : AntiSymm (=) string_le.
Proof. intros s1 s2. apply String.leb_antisym. Qed.

Lemma sort_Strings_sorted x : StronglySorted string_le (sort_Strings x).
Proof. apply StronglySorted_merge_sort; apply _. Qed.

Lemma sort_Strings_perm x : sort_Strings x ≡ₚ x.
Proof. apply merge_sort_Permutation. Qed.

Lemma StronglySorted_filter {A} (R : relation A) (P : A → Prop)
    `{∀ x, Decision (P x)} (l : list A) :
  StronglySorted R l → StronglySorted R (filter P l).
Proof.
  induction 1 as [|a l Hl IH Ha]; [constructor|].
  rewrite filter_cons. case_decide; [|done]. constructor; [done|].
  apply Forall_forall. intros x [_ Hx]%list_elem_of_filter.
  by eapply Forall_forall in Ha.
Qed.

Section MainFacts.

Context {error : Type}.
Variable build_Import : string → string → error + Package.
Variable build_FindOnly : string → string → error + Package.
Variable range_get : string → gset string → list string.
Variable range_count : string → string → gset string → list string.

Hypothesis range_get_perm : ∀ p s, range_get p s ≡ₚ elements s.
Hypothesis range_count_perm : ∀ im p s, range_count im p s ≡ₚ elements s.

(** [Get] on a new manager that returns a descriptor. *)
Lemma Get_new_success fuel path srcDir pkg deps m' tr :
  Get build_Import build_FindOnly range_get fuel NewDependencyManager
    path srcDir = GetReturned (inr (pkg, deps)) m' tr →
  Import build_Import fuel NewDependencyManager path srcDir
    = Returned (inr pkg) m' tr ∧
  build_Import path srcDir = inr pkg ∧
  deps ≡ₚ elements (edges m' (ImportPath pkg)) ∧
  ∀ Q, Q ∈ edges m' (ImportPath pkg) ↔
       ∃ im q, im ∈ Imports pkg ∧ im ≠ "C"%string ∧
               build_Import im (Dir pkg) = inr q ∧ ImportPath q = Q.
Proof.
  intros Hrun.
  destruct (Get_new _ _ _ _ _ _ _ _ _ Hrun)
    as [(err & _ & [=] & _)|(f & r0 & Hf & Himport & Hr)].
  destruct r0 as [err|p]; [done|]. injection Hr as -> ->.
  pose proof (consistent_new build_Import) as Hnew.
  destruct (Import_Import_post build_Import _ _ _ _ _ _ _ Himport) as [_ Hres].
  destruct (Hres p eq_refl (proj1 Hnew)) as (Hp & q & Hq & Hqp).
  destruct (Import_leaves_cached build_Import _ _ _ _ q _ _ _ Hq Himport)
    as (c & _ & Hpc & Hmiss).
  assert (p = q) as ->.
  { rewrite (Hpc p eq_refl). apply Hmiss. apply lookup_empty. }
  split; [done|]. split; [done|].
  split; [by apply Get_deps_perm|].
  by apply (Import_success_edges build_Import fuel NewDependencyManager
              path srcDir q m' tr Hnew (complete_new build_Import) Himport).
Qed.

Lemma main_range_lines fuel dm keep deps lines :
  main_range range_count fuel dm keep deps = Some lines →
  Forall2 (counted_line dm keep) lines (filter (λ im, keep im = true) deps).
Proof.
  revert lines. induction deps as [|im deps IH]; intros lines; simpl.
  { intros [= <-]. constructor. }
  rewrite filter_cons. destruct (decide (keep im = true)) as [Hk|Hk].
  - rewrite Hk. simpl.
    destruct (CoundDepsRecursive _ _ _ _ _) as [n|] eqn:Hn; [|done].
    destruct (main_range _ _ _ _ _) as [rest|]; [|done].
    intros [= <-]. constructor; [|by apply IH].
    apply CoundDepsRecursive_inv in Hn as (visited & Hrun & ->).
    pose proof (addDeps_reachable (range_count im) dm keep
                  (range_count_perm im) fuel im visited Hrun) as Hreach.
    exists visited. split; [done|]. split; [|done].
    assert ({[im]} ⊆ visited) as Hsub%subseteq_size.
    { apply singleton_subseteq_l, Hreach. by constructor. }
    by rewrite size_singleton in Hsub.
  - apply not_true_is_false in Hk. rewrite Hk. simpl. apply IH.
Qed.

Lemma main_range_returns fuel dm keep deps :
  (∀ im, im ∈ deps → (size (targets dm ∪ {[im]}) < fuel)%nat) →
  is_Some (main_range range_count fuel dm keep deps).
Proof.
  induction deps as [|im deps IH]; intros Hfuel; simpl; [done|].
  destruct IH as [rest Hrest].
  { intros im' Him'. apply Hfuel. by right. }
  destruct (keep im); simpl; [|by eauto].
  destruct (addDeps_terminates (range_count im) dm keep (range_count_perm im)
              fuel ∅ im) as [visited Hrun].
  { rewrite difference_empty_L. apply Hfuel. by left. }
  rewrite (CoundDepsRecursive_size _ _ _ _ _ _ Hrun), Hrest. done.
Qed.

Lemma main_filter_exclude im :
  main_filter true im = true → has_dot (first_segment im) = true.
Proof.
  unfold main_filter. rewrite IsStandardPackage_by_spec.
  unfold standard_by_spec. by destruct (has_dot _).
Qed.

End MainFacts.

Section ResolverRange.

Context {error : Type}.
Variable build_Import : string → string → error + Package.
Variable U : gset string.
Hypothesis resolver_range :
  ∀ path srcDir pkg, build_Import path srcDir = inr pkg → ImportPath pkg ∈ U.

Lemma range_steps_cached_range pkg ims m trace r m' trace' :
  range_steps (λ m _ _ (_ : error + Package) m' _, cached m ⊆ U → cached m' ⊆ U)
    pkg ims m trace r m' trace' →
  cached m ⊆ U → cached m' ⊆ U.
Proof. induction 1; auto. Qed.

Lemma Import_cached_range fuel m path srcDir r m' tr :
  Import build_Import fuel m path srcDir = Returned r m' tr →
  cached m ⊆ U → cached m' ⊆ U.
Proof.
  apply (Import_rule build_Import
           (λ m _ _ _ m' _, cached m ⊆ U → cached m' ⊆ U)); [done..|].
  intros m0 p d pkg r0 m0' tr0 Hb _ Hsteps Hm0.
  eapply range_steps_cached_range; [exact Hsteps|].
  unfold cached. simpl. rewrite dom_insert_L.
  pose proof (resolver_range _ _ _ Hb). set_solver.
Qed.

Lemma consistent_targets m : consistent build_Import m → targets m ⊆ cached m.
Proof.
  intros (_ & Hres & _). apply targets_subseteq. intros p. unfold edges.
  destruct (dependencies m !! p) as [s|] eqn:Hs; simpl; [|set_solver].
  by destruct (Hres p s Hs) as (_ & _ & ?).
Qed.

End ResolverRange.

(** X19: what [main] prints when it ends with status 0. There was one
    argument and a working directory; the root was resolved in full from
    a new manager; and there is one line per direct dependency of the
    root that passes the filter, that is per identifier that an import of
    the root (the cgo marker apart) resolves to, in increasing order of
    the identifiers with no identifier twice. Each line carries the
    number of identifiers that paths of filter-passing identifiers join
    to the dependency in the edge table built, the dependency itself
    included, so at least 1. With [-exclude-standard] every identifier
    printed has a dot in its first segment. *)
Theorem main_prints {error : Type}
    (build_Import build_FindOnly : string → string → error + Package)
    (range_get : string → gset string → list string)
    (range_count : string → string → gset string → list string)
    (fuel : nat) (excludeStandard : bool) (args : list string)
    (getwd : error + string) (lines : list string) :
  (∀ p s, range_get p s ≡ₚ elements s) →
  (∀ im p s, range_count im p s ≡ₚ elements s) →
  main build_Import build_FindOnly range_get range_count fuel
    excludeStandard args getwd = Exit0 lines →
  ∃ arg0 cwd pkg dm tr ids,
    args = [arg0] ∧ getwd = inr cwd ∧
    build_Import arg0 cwd = inr pkg ∧
    Import build_Import fuel NewDependencyManager arg0 cwd
      = Returned (inr pkg) dm tr ∧
    StronglySorted string_le ids ∧ NoDup ids ∧
    (∀ id, id ∈ ids ↔
       main_filter excludeStandard id = true ∧
       ∃ im q, im ∈ Imports pkg ∧ im ≠ "C"%string ∧
               build_Import im (Dir pkg) = inr q ∧ ImportPath q = id) ∧
    Forall2 (counted_line dm (main_filter excludeStandard)) lines ids ∧
    (excludeStandard = true →
       ∀ id, id ∈ ids → has_dot (first_segment id) = true).
Proof.
  intros Hget Hcount. unfold main.
  destruct args as [|arg0 [|]]; [done| |done].
  destruct getwd as [err|cwd]; [done|].
  destruct (Get _ _ _ _ _ _ _) as [|[err|[pkg deps]] dm tr] eqn:Hrun; [done..|].
  destruct (main_range _ _ _ _ _) as [out|] eqn:Hout; [|done].
  intros [= <-].
  destruct (Get_new_success build_Import build_FindOnly range_get Hget
              _ _ _ _ _ _ _ Hrun) as (Himport & Hroot & Hdeps & Hedges).
  exists arg0, cwd, pkg, dm, tr,
    (filter (λ im, main_filter excludeStandard im = true) (sort_Strings deps)).
  split; [done|]. split; [done|]. split; [done|]. split; [done|].
  split; [apply StronglySorted_filter, sort_Strings_sorted|].
  split.
  { apply NoDup_filter. rewrite sort_Strings_perm, Hdeps. apply NoDup_elements. }
  split.
  { intros id. rewrite list_elem_of_filter, sort_Strings_perm, Hdeps,
      elem_of_elements. by rewrite Hedges. }
  split; [by eapply main_range_lines|].
  intros -> id [Hid _]%list_elem_of_filter. by apply main_filter_exclude.
Qed.

Lemma main_prints_witness :
  ∃ ids dm,
    main sample_resolver sample_resolver (λ _ s, elements s)
      (λ _ _ s, elements s) 5 false ["P"] (inr "/"%string)
      = Exit0 [Printf_6d_s 1 "X"; Printf_6d_s 1 "Y"] ∧
    StronglySorted string_le ids ∧
    Forall2 (counted_line dm (main_filter false))
      [Printf_6d_s 1 "X"; Printf_6d_s 1 "Y"] ids.
Proof.
  assert (main sample_resolver sample_resolver (λ _ s, elements s)
            (λ _ _ s, elements s) 5 false ["P"] (inr "/"%string)
            = Exit0 [Printf_6d_s 1 "X"; Printf_6d_s 1 "Y"]) as Hrun.
  { vm_compute. reflexivity. }
  destruct (main_prints sample_resolver sample_resolver (λ _ s, elements s)
              (λ _ _ s, elements s) 5 false ["P"] (inr "/"%string)
              [Printf_6d_s 1 "X"; Printf_6d_s 1 "Y"]
              (λ _ _, reflexivity _) (λ _ _ _, reflexivity _) Hrun)
    as (arg0 & cwd & pkg & dm & tr & ids & _ & _ & _ & _ & Hsorted & _ & _
        & Hlines & _).
  exists ids, dm. split; [exact Hrun|]. split; [exact Hsorted|exact Hlines].
Defined.

(** X20: how [main] fails. It ends with the usage text and status 1
    exactly when the number of arguments is not one, before anything is
    resolved; and the error it dies with is the one [os.Getwd] returned,
    or the one the locate-only resolution of the argument returned, or one
    the full resolver produced for some import. *)
Theorem main_failures {error : Type}
    (build_Import build_FindOnly : string → string → error + Package)
    (range_get : string → gset string → list string)
    (range_count : string → string → gset string → list string)
    (fuel : nat) (excludeStandard : bool) (args : list string)
    (getwd : error + string) :
  (main build_Import build_FindOnly range_get range_count fuel
     excludeStandard args getwd = UsageExit ↔ length args ≠ 1%nat) ∧
  (∀ err,
     main build_Import build_FindOnly range_get range_count fuel
       excludeStandard args getwd = LogFatal err →
     getwd = inl err ∨
     ∃ arg0 cwd, args = [arg0] ∧ getwd = inr cwd ∧
       (build_FindOnly arg0 cwd = inl err ∨
        ∃ p d, build_Import p d = inl err)).
Proof.
  unfold main. split.
  - destruct args as [|arg0 [|]]; simpl; [done| |done].
    split; [|done]. destruct getwd as [err|cwd]; [done|].
    destruct (Get _ _ _ _ _ _ _) as [|[err|[pkg deps]] dm tr]; [done..|].
    by destruct (main_range _ _ _ _ _).
  - intros err. destruct args as [|arg0 [|]]; [done| |done].
    destruct getwd as [e|cwd]; [intros [= <-]; by left|].
    destruct (Get _ _ _ _ _ _ _) as [|[e|[pkg deps]] dm tr] eqn:Hrun; [done| |].
    + intros [= <-]. right. exists arg0, cwd. split; [done|]. split; [done|].
      destruct (Get_new _ _ _ _ _ _ _ _ _ Hrun)
        as [(e' & Hf & [= <-] & _)|(f & r0 & Hf & Himport & Hr)]; [by left|].
      destruct r0 as [e'|p]; [|done]. injection Hr as <-.
      right. by eapply Import_error_origin.
    + by destruct (main_range _ _ _ _ _).
Qed.

Lemma main_failures_witness :
  main sample_resolver sample_resolver (λ _ s, elements s)
    (λ _ _ s, elements s) 5 false ["P"; "Q"] (inr "/"%string) = UsageExit ∧
  ∃ p d, sample_resolver p d = inl "cannot find package missing"%string.
Proof.
  destruct (main_failures sample_resolver sample_resolver (λ _ s, elements s)
              (λ _ _ s, elements s) 5 false ["Q"] (inr "/"%string))
    as [_ Hfatal].
  split; [reflexivity|].
  destruct (Hfatal "cannot find package missing"%string eq_refl)
    as [[=]|(arg0 & cwd & [= <-] & [= <-] & [Hfind|Horigin])].
  - discriminate Hfind.
  - exact Horigin.
Defined.

(** X21: [main] terminates. When the full resolver answers with
    identifiers of a finite set and the maps are walked in some order of
    their keys, recursion deeper than the size of that set is never
    needed: with that much fuel [main] ends, whatever its arguments. *)
Theorem main_terminates {error : Type}
    (build_Import build_FindOnly : string → string → error + Package)
    (range_get : string → gset string → list string)
    (range_count : string → string → gset string → list string)
    (U : gset string)
    (fuel : nat) (excludeStandard : bool) (args : list string)
    (getwd : error + string) :
  (∀ path srcDir pkg, build_Import path srcDir = inr pkg → ImportPath pkg ∈ U) →
  (∀ p s, range_get p s ≡ₚ elements s) →
  (∀ im p s, range_count im p s ≡ₚ elements s) →
  (size U < fuel)%nat →
  main build_Import build_FindOnly range_get range_count fuel
    excludeStandard args getwd = UsageExit ∨
  (∃ err, main build_Import build_FindOnly range_get range_count fuel
            excludeStandard args getwd = LogFatal err) ∨
  (∃ lines, main build_Import build_FindOnly range_get range_count fuel
              excludeStandard args getwd = Exit0 lines).
Proof.
  intros HU Hget Hcount Hfuel.
  enough (main build_Import build_FindOnly range_get range_count fuel
            excludeStandard args getwd ≠ MainOutOfFuel) as Hmain.
  { destruct (main _ _ _ _ _ _ _ _) as [| |err|lines]; [done|by left|..].
    - right. left. by exists err.
    - right. right. by exists lines. }
  unfold main.
  destruct args as [|arg0 [|]]; [done| |done].
  destruct getwd as [err|cwd]; [done|].
  destruct (Get _ _ _ _ _ _ _) as [|[err|[pkg deps]] dm tr] eqn:Hrun; [|done|].
  - revert Hrun. unfold Get.
    destruct (build_FindOnly arg0 cwd) as [e|f]; [done|].
    destruct (PackageCache.Get _ _); [done|].
    destruct (Import_returns build_Import U HU fuel NewDependencyManager
                arg0 cwd) as (r & m' & tr & ->).
    { unfold cached. simpl. by rewrite dom_empty_L, difference_empty_L. }
    by destruct r.
  - destruct (Get_new_success build_Import build_FindOnly range_get Hget
                _ _ _ _ _ _ _ Hrun) as (Himport & _ & Hdeps & _).
    assert (targets dm ⊆ U) as Htargets.
    { destruct (Import_keeps_consistent build_Import _ _ _ _ _ _ _ Himport
                  (consistent_new build_Import)) as [Hdm _].
      etrans; [by eapply consistent_targets|].
      eapply Import_cached_range; [done..|].
      unfold cached. simpl. by rewrite dom_empty_L. }
    destruct (main_range_returns range_count Hcount fuel dm
                (main_filter excludeStandard) (sort_Strings deps))
      as [lines ->]; [|done].
    intros im Him. rewrite sort_Strings_perm, Hdeps, elem_of_elements in Him.
    apply (edges_targets dm) in Him.
    assert (size (targets dm ∪ {[im]}) ≤ size U)%nat; [|lia].
    apply subseteq_size. set_solver.
Qed.

Lemma main_terminates_witness :
  ∃ lines,
    main sample_resolver sample_resolver (λ _ s, elements s)
      (λ _ _ s, elements s) 6 true ["P"] (inr "/"%string) = Exit0 lines.
Proof.
  destruct (main_terminates sample_resolver sample_resolver (λ _ s, elements s)
              (λ _ _ s, elements s) {["P"; "X"; "Y"; "zlib"; "Q"]} 6 true ["P"]
              (inr "/"%string))
    as [Husage|[[err Hfatal]|Hlines]].
  - intros path srcDir pkg. unfold sample_resolver.
    repeat (destruct (String.eqb path _); [intros [= <-]; set_solver|]).
    done.
  - intros p s. reflexivity.
  - intros im p s. reflexivity.
  - vm_compute. lia.
  - by vm_compute in Husage.
  - by vm_compute in Hfatal.
  - exact Hlines.
Defined.

(** *** The lines written *)

Lemma pretty_N_char_no_space x : Ascii.eqb (pretty_N_char x) " " = false.
Proof. unfold pretty_N_char. by repeat case_match. Qed.

Lemma pretty_N_go_no_space x : ∀ s,
  has_space s = false → has_space (pretty_N_go x s) = false.
Proof.
  induction (N.lt_wf_0 x) as [x _ IH]. intros s Hs.
  destruct (decide (x = 0)%N) as [->|Hx]; [by rewrite pretty_N_go_0|].
  rewrite pretty_N_go_step by lia. apply IH.
  - apply N.div_lt; lia.
  - simpl. by rewrite pretty_N_char_no_space.
Qed.

Lemma pretty_N_go_nonempty x : ∀ s,
  s ≠ EmptyString ∨ (0 < x)%N → pretty_N_go x s ≠ EmptyString.
Proof.
  induction (N.lt_wf_0 x) as [x _ IH]. intros s Hs.
  destruct (decide (x = 0)%N) as [->|Hx].
  { rewrite pretty_N_go_0. destruct Hs as [?|?]; [done|lia]. }
  rewrite pretty_N_go_step by lia. apply IH; [apply N.div_lt; lia|by left].
Qed.

Lemma pretty_N_digits (x : N) :
  has_space (pretty x) = false ∧ pretty x ≠ EmptyString.
Proof.
  unfold pretty, pretty_N. case_decide; [done|]. split.
  - by apply pretty_N_go_no_space.
  - apply pretty_N_go_nonempty. right. lia.
Qed.

Lemma pretty_Z_digits (n : Z) :
  has_space (pretty n) = false ∧ pretty n ≠ EmptyString.
Proof.
  destruct n as [|x|x]; [done|apply (pretty_N_digits (Npos x))|].
  unfold pretty, pretty_Z. split; [|done]. simpl.
  apply (pretty_N_digits (Npos x)).
Qed.

Lemma string_app_assoc (s1 s2 s3 : string) :
  (s1 +:+ s2) +:+ s3 = s1 +:+ (s2 +:+ s3).
Proof.
  induction s1 as [|c s1 IH]; [done|].
  change (String c ((s1 +:+ s2) +:+ s3) = String c (s1 +:+ s2 +:+ s3)).
  by rewrite IH.
Qed.

Lemma lstrip_pad k d r :
  has_space d = false → d ≠ EmptyString →
  lstrip (String.concat "" (replicate k " "%string) +:+ d +:+ r) = d +:+ r.
Proof.
  intros Hd Hne. induction k as [|k IH]; simpl.
  - destruct d as [|c d]; [done|]. simpl in *.
    by destruct (Ascii.eqb c " ").
  - destruct k; exact IH.
Qed.

Lemma until_space_app d r :
  has_space d = false → until_space (d +:+ String " " r) = d.
Proof.
  induction d as [|c d IH]; simpl; [done|].
  destruct (Ascii.eqb c " "); [done|]. simpl. intros Hd. by rewrite IH.
Qed.

Lemma after_space_app d r :
  has_space d = false → after_space (d +:+ String " " r) = r.
Proof.
  induction d as [|c d IH]; simpl; [done|].
  destruct (Ascii.eqb c " "); [done|]. simpl. apply IH.
Qed.

Lemma but_last_app s c : but_last (s +:+ String c EmptyString) = s.
Proof.
  induction s as [|a s IH]; simpl; [done|].
  rewrite IH. by destruct s.
Qed.

(** X22: a line [main] writes can be read back: the text between the
    leading spaces and the next space is the decimal count, and what
    follows, up to the newline, is the identifier, even when the
    identifier has spaces in it or the count has more than six digits.
    So two lines are equal only for the same count and identifier. *)
Theorem Printf_6d_s_read_back (n : Z) (im : string) :
  line_fields (Printf_6d_s n im) = (pretty n, im) ∧
  ∀ n' im', Printf_6d_s n im = Printf_6d_s n' im' → n = n' ∧ im = im'.
Proof.
  assert (∀ n im, line_fields (Printf_6d_s n im) = (pretty n, im)) as Hread.
  { clear. intros n im. destruct (pretty_Z_digits n) as [Hd Hne].
    unfold line_fields, Printf_6d_s, pad_left.
    change (" " +:+ im +:+ String "010" EmptyString)
      with (String " " (im +:+ String "010" EmptyString)).
    rewrite string_app_assoc, lstrip_pad by done.
    by rewrite until_space_app, after_space_app, but_last_app. }
  split; [done|]. intros n' im' Heq.
  pose proof (Hread n im) as H1. rewrite Heq, Hread in H1.
  injection H1 as Hn ->. split; [|done]. symmetry. by apply (inj pretty).
Qed.
